(** * calibre.gui2.tweak_book.widgets: a shallow embedding

    The dialogs of the book editor (src/calibre/gui2/tweak_book/widgets.py)
    as pure functions over explicit widget state.  Python 2 [unicode]
    strings are sequences of code units, dictionaries are finite maps, and
    every call into the GUI toolkit that the properties below depend on is
    recorded in an event trace. *)

From Stdlib Require Import ZArith NArith String Ascii List Lia.
From stdpp Require Import base gmap sets list sorting strings.

Local Open Scope Z_scope.

(** ** Python values *)

(** A Python 2 [unicode] object: the sequence of its code units. *)
Abbreviation unicode := (list N).

(** A literal of the source, code unit by code unit. *)
Definition u (s : string) : unicode :=
  List.map N_of_ascii (list_ascii_of_string s).

Module Py.

(** The position a slice bound [i] denotes in a sequence of length
    [length s]: negative bounds count from the end, and every bound is
    clipped to the sequence. *)
Definition bound {A} (s : list A) (i : Z) : nat :=
  let n := Z.of_nat (length s) in
  Z.to_nat (if i <? 0 then Z.max (i + n) 0 else Z.min i n).

(** [s[:hi]] *)
Definition slice_to {A} (s : list A) (hi : Z) : list A :=
  take (bound s hi) s.

(** [s[lo:]] *)
Definition slice_from {A} (s : list A) (lo : Z) : list A :=
  drop (bound s lo) s.

(** [s[lo:hi]] *)
Definition slice {A} (s : list A) (lo hi : Z) : list A :=
  take (bound s hi - bound s lo)%nat (drop (bound s lo) s).

(** [s[i]]; [None] stands for IndexError. *)
Definition item {A} (s : list A) (i : Z) : option A :=
  let n := Z.of_nat (length s) in
  if 0 <=? i then s !! Z.to_nat i
  else if 0 <=? i + n then s !! Z.to_nat (i + n)
  else None.

(** [len(s)] *)
Definition len {A} (s : list A) : Z := Z.of_nat (length s).

End Py.

(** ** Quick Open: highlighted text *)

(** The first half of a UTF-16 surrogate pair. *)
Definition is_high_surrogate (c : N) : bool :=
  ((55296 <=? c) && (c <=? 56319))%N.

(** Modelled from the spec: [get_char] of calibre.utils.matcher is not in
    src/.  The spec calls it a grapheme-aware accessor that treats a
    multi-unit character as one emphasis unit: on a narrow build the code
    unit at [pos] is taken together with the next one when it is the first
    half of a surrogate pair.  Indexing outside the string raises. *)
Definition get_char (string : unicode) (pos : Z) : option unicode :=
  c ← Py.item string pos;
  let chs := if is_high_surrogate c then 2 else 1 in
  Some (Py.slice string pos (pos + chs)).

(** ['<span style="%s">%s</span>' % (emph, ch)] *)
Definition span (emph ch : unicode) : unicode :=
  u "<span style=" ++ [34%N] ++ emph ++ [34%N] ++ u ">" ++ ch ++ u "</span>".

Global Arguments u : simpl never.
Global Arguments span : simpl never.

(** [sorted(set(positions) - {-1}, reverse=True)] *)
Definition sorted_positions (positions : list Z) : list Z :=
  merge_sort (flip Z.le)
    (elements ((list_to_set positions : gset Z) ∖ {[ -1 ]})).

(** The body of the [for p in positions] loop. *)
Fixpoint highlight_loop (emph text : unicode) (positions : list Z)
  : option unicode :=
  match positions with
  | [] => Some text
  | p :: rest =>
      ch ← get_char text p;
      highlight_loop emph
        (Py.slice_to text p ++ span emph ch ++
         Py.slice_from text (p + Py.len ch)) rest
  end.

Section Highlight.

(** [prepare_string_for_xml] of the calibre package is not in src/; the
    properties of this section hold for whatever it returns. *)
Variable prepare_string_for_xml : unicode → unicode.

Definition make_highlighted_text (emph text : unicode) (positions : list Z)
  : option unicode :=
  let positions := sorted_positions positions in
  let text := prepare_string_for_xml text in
  highlight_loop emph text positions.

End Highlight.

(** The end of the character that starts at [p] in [s]. *)
Definition char_end (s : unicode) (p : Z) : Z :=
  p + Py.len (default [] (get_char s p)).

(** [P] holds valid character positions of [s]: apart from the sentinel,
    each one indexes [s], and none falls inside the character that starts
    at another one. *)
Definition valid_positionsb (s : unicode) (P : list Z) : bool :=
  forallb (λ p,
    (p =? -1) ||
    ((0 <=? p) && (p <? Py.len s) &&
     forallb (λ q, (q =? -1) || (q <=? p) || (char_end s p <=? q)) P)) P.

(** The reference rendering, read off the string [esc] as it is before any
    markup: below [bound], the characters of [esc] that start at the
    positions [ds] (in descending order) each sit in a span of their own
    and everything between them is copied. *)
Fixpoint emphasized (emph esc : unicode) (bound : Z) (ds : list Z) : unicode :=
  match ds with
  | [] => Py.slice esc 0 bound
  | d :: ds' =>
      emphasized emph esc d ds' ++
      span emph (default [] (get_char esc d)) ++
      Py.slice esc (char_end esc d) bound
  end.

(** The number of code units of the character that starts at index [n]. *)
Definition char_units (s : unicode) (n : nat) : nat :=
  match s !! n with
  | Some c => if is_high_surrogate c then 2%nat else 1%nat
  | None => 0%nat
  end.

(** [fits esc b ds]: the characters of [esc] that start at the positions
    [ds] lie below [b], each one wholly below the one before it. *)
Fixpoint fits (esc : unicode) (b : Z) (ds : list Z) : Prop :=
  match ds with
  | [] => True
  | d :: ds' => 0 ≤ d < Py.len esc ∧ char_end esc d ≤ b ∧ fits esc d ds'
  end.

(** Modelled from the spec: [prepare_string_for_xml] of the calibre package
    is not in src/.  The spec describes it as XML-escaping of the special
    characters, which are the ampersand and the two angle brackets. *)
Definition xml_escape_char (c : N) : unicode :=
  if (c =? 38)%N then u "&amp;"
  else if (c =? 60)%N then u "&lt;"
  else if (c =? 62)%N then u "&gt;"
  else [c].

Definition xml_escape (raw : unicode) : unicode :=
  flat_map xml_escape_char raw.

(** ** Filterable names list: the delegate *)

(** The class attributes of [Results]. *)
Module Results_const.

(** [Results.EMPH] *)
Definition EMPH : unicode := u "color:magenta; font-weight:bold".

(** [Results.MARGIN] *)
Definition MARGIN : Z := 4.

End Results_const.

(** What [NamesDelegate.paint] hands to the painter for the item text:
    either the plain text ([painter.drawText]) or a rich-text document
    ([doc.setHtml] and [doc.drawContents]). *)
Inductive item_drawing : Type :=
  | DrawText (text : unicode)
  | DrawContents (html : unicode).

Section Delegate.

Variable prepare_string_for_xml : unicode → unicode.

(** [positions] is [None] for an unfiltered model. [None] as a result
    stands for the IndexError of [make_highlighted_text]. *)
Definition NamesDelegate_paint (text : unicode) (positions : option (list Z))
  : option item_drawing :=
  match positions with
  | None => Some (DrawText text)
  | Some positions =>
      if bool_decide ((-1) ∈ positions) then Some (DrawText text)
      else
        let positions := sorted_positions positions in
        html ← make_highlighted_text prepare_string_for_xml
                 Results_const.EMPH text positions;
        Some (DrawContents (u "<body>" ++ html ++ u "</body>"))
  end.

End Delegate.

(** [P] with every occurrence of the sentinel removed. *)
Definition discard_sentinel (P : list Z) : list Z :=
  filter (λ p, p ≠ -1) P.

(** ** Quick Open: the result list *)

(** [s.rpartition(sep)[0]] and [s.rpartition(sep)[2]] for a separator of
    one code unit: the parts before and after the last [sep], and the empty
    string and [s] when [s] holds no [sep]. *)
Fixpoint rpartition (sep : N) (s : unicode) : option (unicode * unicode) :=
  match s with
  | [] => None
  | c :: s' =>
      match rpartition sep s' with
      | Some (head, tail) => Some (c :: head, tail)
      | None => if (c =? sep)%N then Some ([], s') else None
      end
  end.

Definition rpartition_head (sep : N) (s : unicode) : unicode :=
  match rpartition sep s with Some (head, _) => head | None => [] end.

Definition rpartition_tail (sep : N) (s : unicode) : unicode :=
  match rpartition sep s with Some (_, tail) => tail | None => s end.

(** [os.path.basename] on a POSIX path. *)
Definition basename (path : unicode) : unicode := rpartition_tail 47 path.

(** A [QStaticText]: its markup and the height the toolkit lays it out
    with ([size().height()], in whole pixels). *)
Record QStaticText := {
  markup : unicode;
  height : Z;
}.

(** The state of a [Results] widget.  [updates] counts the repaints
    requested with [self.update()].  Widths, which only place the columns,
    are left out. *)
Record Results := {
  results : list (QStaticText * QStaticText * unicode);
  current_result : Z;
  max_result : Z;
  mouse_hover_result : Z;
  updates : nat;
}.

(** [Results.__init__] *)
Definition Results_init : Results :=
  {| results := []; current_result := -1; max_result := -1;
     mouse_hover_result := -1; updates := 0 |}.

(** [self.update()] *)
Definition update (self : Results) : Results :=
  {| results := results self; current_result := current_result self;
     max_result := max_result self;
     mouse_hover_result := mouse_hover_result self;
     updates := S (updates self) |}.

(** [Results.change_current] *)
Definition change_current (self : Results) (delta : Z) : Results :=
  match results self with
  | [] => self
  | _ :: _ =>
      let nc := current_result self + delta in
      if (0 <=? nc) && (nc <=? max_result self) then
        update
          {| results := results self; current_result := nc;
             max_result := max_result self;
             mouse_hover_result := mouse_hover_result self;
             updates := updates self |}
      else self
  end.

Section ResultList.

Variable prepare_string_for_xml : unicode → unicode.

(** The height the toolkit gives a line of rich text. *)
Variable text_height : unicode → Z.

(** [Results.make_text] *)
Definition make_text (text : unicode) (positions : list Z)
  : option QStaticText :=
  html ← make_highlighted_text prepare_string_for_xml
           Results_const.EMPH text positions;
  Some {| markup := html; height := text_height html |}.

(** The rows [Results.__call__] builds from the matches, in the order of
    the ordered dictionary. *)
Fixpoint make_rows (matches : list (unicode * list Z))
  : option (list (QStaticText * QStaticText * unicode)) :=
  match matches with
  | [] => Some []
  | (text, positions) :: rest =>
      let prefix := u "<b>" ++ basename text ++ u "</b>" in
      full ← make_text text positions;
      rows ← make_rows rest;
      Some (({| markup := prefix; height := text_height prefix |},
             full, text) :: rows)
  end.

(** [Results.__call__]; [None] when [make_highlighted_text] raises. *)
Definition Results_call (self : Results) (matches : list (unicode * list Z))
  : option Results :=
  rows ← match matches with
         | [] => Some []
         | _ :: _ => make_rows matches
         end;
  Some (update
    {| results := rows;
       current_result := match matches with [] => -1 | _ :: _ => 0 end;
       max_result := Z.min 10 (Py.len rows - 1);
       mouse_hover_result := -1;
       updates := updates self |}).

End ResultList.

(** The loop of [Results.paintEvent] from row [i] on, the painter standing
    at height [y]: the value of [max_result] it leaves, and the index and
    the height of every row it lays out. *)
Fixpoint paint_rows (bottom : Z)
    (rows : list (QStaticText * QStaticText * unicode))
    (i y max_result : Z) : Z * list (Z * Z) :=
  match rows with
  | [] => (max_result, [])
  | (prefix, full, text) :: rest =>
      if y + height prefix >? bottom then (max_result, [])
      else
        let y_text := y + Results_const.MARGIN / 2 in
        let '(m, laid_out) :=
          paint_rows bottom rest (i + 1)
            (y_text + height prefix + Results_const.MARGIN / 2) i in
        (m, (i, y_text) :: laid_out)
  end.

(** [Results.paintEvent] in a widget whose rectangle ends at [bottom]. *)
Definition paintEvent (self : Results) (bottom : Z) : Results * list (Z * Z) :=
  let '(m, laid_out) := paint_rows bottom (results self) 0 0 (max_result self) in
  ({| results := results self; current_result := current_result self;
      max_result := m; mouse_hover_result := mouse_hover_result self;
      updates := updates self |}, laid_out).

(** The rows of height [h] that fit above [bottom]: row [i] starts at
    [i * (h + MARGIN)] and must end at or above [bottom]. *)
Definition capacity (h bottom : Z) : Z :=
  if bottom <? h then 0 else (bottom - h) / (h + Results_const.MARGIN) + 1.

(** What a [Results] widget goes through while it shows one result set, in
    a widget whose rectangle ends at [bottom]: a call of [change_current],
    or a repaint. *)
Inductive window_event : Type :=
  | Change (delta : Z)
  | Repainted.

Definition window_step (bottom : Z) (self : Results) (e : window_event)
  : Results :=
  match e with
  | Change delta => change_current self delta
  | Repainted => (paintEvent self bottom).1
  end.

(** [change_current(delta)] called [n] times. *)
Fixpoint change_current_times (n : nat) (self : Results) (delta : Z) : Results :=
  match n with
  | O => self
  | S n' => change_current_times n' (change_current self delta) delta
  end.

(** The positions of every match are valid for its escaped text. *)
Definition valid_matches (prep : unicode → unicode)
    (matches : list (unicode * list Z)) : bool :=
  forallb (λ m, valid_positionsb (prep m.1) m.2) matches.

(** ** Dialogs *)

(** A [bytearray]. *)
Abbreviation bytes := (list Byte.byte).

(** What the dialogs do to the toolkit and to the preferences, in order. *)
Inductive event : Type :=
  | TprefsSet (key : unicode) (value : bytes)
  | RestoreGeometry (geom : bytes)
  | RestoreState (state : bytes)
  | QDialogAccept
  | QDialogReject
  | MessageBoxCreated (title msg : unicode)
  | MessageBoxExec (title msg : unicode).

(** The world around a dialog: the preferences store [tprefs] and the trace
    of events so far. *)
Record gui := {
  tprefs : gmap unicode bytes;
  trace : list event;
}.

Definition emit (w : gui) (evs : list event) : gui :=
  {| tprefs := tprefs w; trace := trace w ++ evs |}.

(** [tprefs.set(key, value)] *)
Definition tprefs_set (w : gui) (key : unicode) (value : bytes) : gui :=
  {| tprefs := <[key := value]> (tprefs w);
     trace := trace w ++ [TprefsSet key value] |}.

(** The result code of a [QDialog]. *)
Inductive dialog_code : Type := Pending | Accepted | Rejected.

(** A [Dialog].  [geometry] is the window geometry in the form
    [saveGeometry()] returns and [restoreGeometry()] takes; [splitter] is
    the state of the [splitter] attribute, [None] for a dialog without
    one. *)
Record Dialog := {
  name : unicode;
  geometry : bytes;
  splitter : option bytes;
  code : dialog_code;
}.

Definition geometry_key (name : unicode) : unicode := name ++ u "-geometry".
Definition splitter_key (name : unicode) : unicode :=
  name ++ u "-splitter-state".

(** [Dialog.__init__], after [setup_ui] has built a dialog of geometry
    [size_hint] with the splitter [fresh_splitter]. *)
Definition Dialog_init (name : unicode) (size_hint : bytes)
    (fresh_splitter : option bytes) (w : gui) : Dialog * gui :=
  let '(geom, w) :=
    match tprefs w !! geometry_key name with
    | Some geom => (geom, emit w [RestoreGeometry geom])
    | None => (size_hint, w)
    end in
  let '(split, w) :=
    match fresh_splitter with
    | Some fresh =>
        match tprefs w !! splitter_key name with
        | Some state => (Some state, emit w [RestoreState state])
        | None => (Some fresh, w)
        end
    | None => (None, w)
    end in
  ({| name := name; geometry := geom; splitter := split; code := Pending |}, w).

(** The two [tprefs.set] calls [accept] and [reject] start with. *)
Definition save_state (self : Dialog) (w : gui) : gui :=
  let w := tprefs_set w (geometry_key (name self)) (geometry self) in
  match splitter self with
  | Some state => tprefs_set w (splitter_key (name self)) state
  | None => w
  end.

Definition close (self : Dialog) (c : dialog_code) : Dialog :=
  {| name := name self; geometry := geometry self;
     splitter := splitter self; code := c |}.

(** [Dialog.accept] *)
Definition Dialog_accept (self : Dialog) (w : gui) : Dialog * gui :=
  let w := save_state self w in
  (close self Accepted, emit w [QDialogAccept]).

(** [Dialog.reject] *)
Definition Dialog_reject (self : Dialog) (w : gui) : Dialog * gui :=
  let w := save_state self w in
  (close self Rejected, emit w [QDialogReject]).

(** Modelled from the spec: [error_dialog] of calibre.gui2 is not in src/.
    The spec has it surface a modal error message.  In src/ the modal run
    is asked for with [show=True] (ImportForeign.accept), and where a
    message box of the same family is built without it
    (InsertSemantics.help_requested and [info_dialog]) the caller runs
    [exec_()] on the returned box itself: without [show] the box is built
    and returned, not shown. *)
Definition error_dialog (w : gui) (title msg : unicode) (show : bool) : gui :=
  emit w (MessageBoxCreated title msg ::
          if show then [MessageBoxExec title msg] else []).

Definition error_dialog_default_show : bool := false.

(** The [XPathEdit] of the MultiSplit dialog: its text, and whether
    [check()] accepts that text. *)
Record XPathEdit := {
  xpath : unicode;
  check : bool;
}.

Record MultiSplit := {
  ms_dialog : Dialog;
  _xpath : XPathEdit;
}.

(** [MultiSplit.accept] *)
Definition MultiSplit_accept (self : MultiSplit) (w : gui) : MultiSplit * gui :=
  if negb (check (_xpath self)) then
    (self,
     error_dialog w (u "Invalid XPath expression")
       (u "The XPath expression " ++ xpath (_xpath self) ++ u " is invalid.")
       error_dialog_default_show)
  else
    let '(d, w) := Dialog_accept (ms_dialog self) w in
    ({| ms_dialog := d; _xpath := _xpath self |}, w).

(** The ImportForeign dialog with the texts of its two line edits. *)
Record ImportForeign := {
  if_dialog : Dialog;
  src : unicode;
  dest : unicode;
}.

(** [ImportForeign.accept] *)
Definition ImportForeign_accept (self : ImportForeign) (w : gui)
  : ImportForeign * gui :=
  match src self with
  | [] =>
      (self,
       error_dialog w (u "Need document")
         (u "You must specify the source file that will be imported.") true)
  | _ :: _ =>
      let '(d, w) := Dialog_accept (if_dialog self) w in
      ({| if_dialog := d; src := src self; dest := dest self |}, w)
  end.

(** [unicode.isspace] for one code unit. *)
Definition isspace (c : N) : bool :=
  (((9 <=? c) && (c <=? 13)) || ((28 <=? c) && (c <=? 32)) ||
   (c =? 133) || (c =? 160) || (c =? 5760) || (c =? 6158) ||
   ((8192 <=? c) && (c <=? 8202)) || (c =? 8232) || (c =? 8233) ||
   (c =? 8239) || (c =? 8287) || (c =? 12288))%N.

Fixpoint lstrip (s : unicode) : unicode :=
  match s with
  | [] => []
  | c :: s' => if isspace c then lstrip s' else s
  end.

Definition rstrip (s : unicode) : unicode := reverse (lstrip (reverse s)).

(** [s.strip()] *)
Definition strip (s : unicode) : unicode := rstrip (lstrip s).

(** [s.lower()], on the letters of ASCII; no other character has a letter
    of the extension tested below as its lower case. *)
Definition lower (s : unicode) : unicode :=
  (λ c, if ((65 <=? c) && (c <=? 90))%N then (c + 32)%N else c) <$> s.

(** [s.endswith(suffix)] *)
Definition endswith (s suffix : unicode) : bool :=
  bool_decide (drop (length s - length suffix) s = suffix).

(** [ImportForeign.data] *)
Definition ImportForeign_data (self : ImportForeign) : unicode * unicode :=
  let src := strip (src self) in
  let dest := strip (dest self) in
  let dest :=
    match dest with
    | [] => rpartition_head 46 src ++ u ".epub"
    | _ :: _ => dest
    end in
  (src, dest).

(** [ImportForeign.choose_destination], [path] being what the save chooser
    returned. *)
Definition choose_destination (self : ImportForeign) (path : option unicode)
  : ImportForeign :=
  match path with
  | None | Some [] => self
  | Some path =>
      let path :=
        if negb (endswith (lower path) (u ".epub")) then path ++ u ".epub"
        else path in
      {| if_dialog := if_dialog self; src := src self; dest := path |}
  end.

(** A string that neither starts nor ends with white space. *)
Definition stripped (s : unicode) : Prop :=
  (∀ c, head s = Some c → isspace c = false) ∧
  (∀ c, last s = Some c → isspace c = false).

(** ** Insert Semantics *)

(** [s.partition(sep)[0]] and [s.partition(sep)[2]] for a separator of one
    code unit: the parts before and after the first [sep]. *)
Fixpoint partition (sep : N) (s : unicode) : unicode * unicode :=
  match s with
  | [] => ([], [])
  | c :: s' =>
      if (c =? sep)%N then ([], s')
      else let '(head, tail) := partition sep s' in (c :: head, tail)
  end.

(** A file name and a fragment, the fragment being [None] or a string. *)
Abbreviation location := (unicode * option unicode)%type.

(** The maps of an InsertSemantics dialog, and the data of the current item
    of its [semantic_type] combo box. *)
Record InsertSemantics := {
  original_type_map : gmap unicode location;
  final_type_map : gmap unicode location;
  semantic_type : unicode;
}.

(** [InsertSemantics.known_type_map] *)
Definition known_type_map : gmap unicode unicode :=
  list_to_map [
    (u "title-page", u "Title Page");
    (u "toc", u "Table of Contents");
    (u "index", u "Index");
    (u "glossary", u "Glossary");
    (u "acknowledgements", u "Acknowledgements");
    (u "bibliography", u "Bibliography");
    (u "colophon", u "Colophon");
    (u "copyright-page", u "Copyright page");
    (u "dedication", u "Dedication");
    (u "epigraph", u "Epigraph");
    (u "foreword", u "Foreword");
    (u "loi", u "List of Illustrations");
    (u "lot", u "List of Tables");
    (u "notes:", u "Notes");
    (u "preface", u "Preface");
    (u "text", u "Text")
  ].

(** What happens to the dialog once it is open.

    [SelectType item_type cascade]: the combo box moves to the item with
    data [item_type] and [semantic_type_changed] runs [show_type].  There
    the rows of the two name lists are selected (lines 765-773) before the
    signals of the target line are blocked (line 774), so each selection
    runs [update_target], whose [setText] reaches [target_text_changed]
    whenever it changes the text of the line.  [cascade] holds the texts
    that reach it, in order; which they are depends on the rows the lists
    hold and on the text the line had.

    [TargetText text]: the text of the target line changes, typed by the
    user or set by [update_target] after a click in a list. *)
Inductive edit : Type :=
  | SelectType (item_type : unicode) (cascade : list unicode)
  | TargetText (text : unicode).

(** [InsertSemantics.target_text_changed] *)
Definition target_text_changed (self : InsertSemantics) (text : unicode)
  : InsertSemantics :=
  let '(name, frag) := partition 35 text in
  let item_type := semantic_type self in
  {| original_type_map := original_type_map self;
     final_type_map :=
       <[item_type := (name, match frag with [] => None | _ :: _ => Some frag end)]>
         (final_type_map self);
     semantic_type := semantic_type self |}.

(** One event: the only place that writes [final_type_map] is
    [target_text_changed] (line 784), with the item type the combo box is
    on at that moment. *)
Definition apply_edit (self : InsertSemantics) (e : edit) : InsertSemantics :=
  match e with
  | SelectType item_type cascade =>
      foldl target_text_changed
        {| original_type_map := original_type_map self;
           final_type_map := final_type_map self;
           semantic_type := item_type |}
        cascade
  | TargetText text => target_text_changed self text
  end.

(** The item types the combo box offers are the keys of
    [known_type_map]. *)
Definition offered (e : edit) : Prop :=
  match e with
  | SelectType item_type _ => is_Some (known_type_map !! item_type)
  | TargetText _ => True
  end.

(** [InsertSemantics.changed_type_map] *)
Definition changed_type_map (self : InsertSemantics) : gmap unicode location :=
  filter (λ kv, Some kv.2 ≠ original_type_map self !! kv.1)
    (final_type_map self).

(** A call [set_guide_item(container, item_type, title, name, frag=frag)]. *)
Record guide_item := {
  gi_type : unicode;
  gi_title : unicode;
  gi_name : unicode;
  gi_frag : option unicode;
}.

Section Semantics.

(** [container.href_to_name(href, container.opf_name)] *)
Variable href_to_name : unicode → unicode.

(** [translate(lang, title)] of calibre.translations.dynamic *)
Variable translate : unicode → unicode → unicode.

(** [InsertSemantics.__init__] for the guide references [guide], each a
    type and an href, in document order; [first_type] is the data of the
    item the combo box starts on. *)
Definition InsertSemantics_init (guide : list (unicode * unicode))
    (first_type : unicode) : InsertSemantics :=
  let original :=
    foldl (λ m item,
             <[item.1 := (href_to_name item.2, Some (partition 35 item.2).2)]> m)
          ∅ guide in
  {| original_type_map := original;
     final_type_map := original;
     semantic_type := first_type |}.

(** The loop of [apply_changes]: the calls made, and [false] when the
    lookup of the title raised KeyError. *)
Fixpoint set_guide_items (lang : option unicode)
    (items : list (unicode * location)) : list guide_item * bool :=
  match items with
  | [] => ([], true)
  | (item_type, (name, frag)) :: rest =>
      match known_type_map !! item_type with
      | None => ([], false)
      | Some title =>
          let title :=
            match lang with
            | Some ((_ :: _) as lang) => translate lang title
            | _ => title
            end in
          let '(calls, ok) := set_guide_items lang rest in
          ({| gi_type := item_type; gi_title := title;
              gi_name := name; gi_frag := frag |} :: calls, ok)
      end
  end.

(** [InsertSemantics.apply_changes] for a book of language [lang]. *)
Definition apply_changes (self : InsertSemantics) (lang : option unicode)
  : list guide_item * bool :=
  set_guide_items lang (map_to_list (changed_type_map self)).

End Semantics.

(** Every entry of the final map is an entry of the snapshot or sits under
    an item type of the combo box. *)
Definition entries_offered (self : InsertSemantics) : Prop :=
  is_Some (known_type_map !! semantic_type self) ∧
  ∀ k v, final_type_map self !! k = Some v →
    original_type_map self !! k = Some v ∨ is_Some (known_type_map !! k).


(** ** Highlighted text: the markup *)

(** The code units a span adds around the character it wraps. *)
Definition span_overhead (emph : unicode) : Z := 22 + Py.len emph.

(** ** The result list: mouse and selection *)

(** The loop of [Results.item_from_y] from row [i] on, [pos] being the top
    of that row. *)
Fixpoint item_from_y_loop (delta y maxy : Z)
    (rows : list (QStaticText * QStaticText * unicode)) (i pos : Z) : Z :=
  match rows with
  | [] => -1
  | _ :: rest =>
      let bottom := pos + delta in
      if (pos <=? y) && (y <? bottom) then i
      else if bottom >? Z.min y maxy then -1
      else item_from_y_loop delta y maxy rest (i + 1) bottom
  end.

(** [Results.item_from_y] in a widget of height [maxy]; the result is
    [None] when there are no results. *)
Definition item_from_y (self : Results) (maxy y : Z) : option Z :=
  match results self with
  | [] => None
  | (prefix, _, _) :: _ =>
      Some (item_from_y_loop (height prefix + Results_const.MARGIN) y maxy
              (results self) 0 0)
  end.

(** What [Results.mousePressEvent] does with a press: it hands the event
    on to [QWidget], or it assigns [current_result] (the value
    [item_from_y] returned), asks for a repaint and emits
    [item_selected]. *)
Inductive press_outcome : Type :=
  | PassedOn
  | Selected (current : option Z).

(** [Results.mousePressEvent] for a press of [button] at height [y]. *)
Definition mousePressEvent (self : Results) (maxy button y : Z)
  : press_outcome :=
  if button =? 1 then
    let i := item_from_y self maxy y in
    if bool_decide (i ≠ Some (-1)) then Selected i else PassedOn
  else PassedOn.

(** [Results.selected_result]; [None] is what the property returns after
    IndexError. *)
Definition selected_result (self : Results) : option unicode :=
  (λ row, row.2) <$> Py.item (results self) (current_result self).

(** The calls a [Results] widget receives. *)
Inductive results_op : Type :=
  | Call (matches : list (unicode * list Z))
  | ChangeCurrent (delta : Z)
  | Paint (bottom : Z)
  | Press (maxy button y : Z).

Section ResultOps.

Variable prepare_string_for_xml : unicode → unicode.
Variable text_height : unicode → Z.

(** One call on the widget.  [None] when the call raises, and when a press
    leaves [None] in [current_result]. *)
Definition results_step (self : Results) (op : results_op) : option Results :=
  match op with
  | Call matches => Results_call prepare_string_for_xml text_height self matches
  | ChangeCurrent delta => Some (change_current self delta)
  | Paint bottom => Some (paintEvent self bottom).1
  | Press maxy button y =>
      match mousePressEvent self maxy button y with
      | PassedOn => Some self
      | Selected (Some i) =>
          Some (update
            {| results := results self; current_result := i;
               max_result := max_result self;
               mouse_hover_result := mouse_hover_result self;
               updates := updates self |})
      | Selected None => None
      end
  end.

Fixpoint results_run (self : Results) (ops : list results_op)
  : option Results :=
  match ops with
  | [] => Some self
  | op :: rest =>
      match results_step self op with
      | Some self' => results_run self' rest
      | None => None
      end
  end.

End ResultOps.

(** The selection indexes a row, and [max_result] stays below the number
    of rows; without rows the selection is -1. *)
Definition selection_in_rows (self : Results) : Prop :=
  max_result self < Py.len (results self) ∧
  match results self with
  | [] => current_result self = -1
  | _ :: _ => 0 ≤ current_result self < Py.len (results self)
  end.

(** ** Quick Open: the dialog *)

(** A QuickOpen dialog: the underlying [Dialog], the [Results] widget, the
    keys of the last matches, the selection handed out by [accept], and
    whether the help label and the result list are visible. *)
Record QuickOpen := {
  qo_dialog : Dialog;
  qo_results : Results;
  qo_matches : list unicode;
  qo_selected_result : option unicode;
  help_label_visible : bool;
  results_visible : bool;
}.

(** The keys [QuickOpen.keyPressEvent] tells apart. *)
Inductive key : Type := Key_Up | Key_Down | Key_other.

Section QuickOpenDialog.

Variable prepare_string_for_xml : unicode → unicode.
Variable text_height : unicode → Z.

(** [self.matcher(text, limit=100)]: the matches of a query as an ordered
    dictionary, best match first.  The matcher is not part of this
    module. *)
Variable matcher : unicode → list (unicode * list Z).

(** [QuickOpen.update_matches]; [None] when building the rows raises. *)
Definition update_matches (self : QuickOpen) (text : unicode)
  : option QuickOpen :=
  let text := strip text in
  let matches := matcher text in
  results ← Results_call prepare_string_for_xml text_height
              (qo_results self) matches;
  Some {| qo_dialog := qo_dialog self;
          qo_results := results;
          qo_matches := matches.*1;
          qo_selected_result := qo_selected_result self;
          help_label_visible := false;
          results_visible := true |}.

End QuickOpenDialog.

(** [QuickOpen.keyPressEvent]; [None] when the event goes on to
    [Dialog.keyPressEvent]. *)
Definition keyPressEvent (self : QuickOpen) (k : key) : option QuickOpen :=
  match k with
  | Key_other => None
  | _ =>
      Some {| qo_dialog := qo_dialog self;
              qo_results :=
                change_current (qo_results self)
                  (match k with Key_Up => -1 | _ => 1 end);
              qo_matches := qo_matches self;
              qo_selected_result := qo_selected_result self;
              help_label_visible := help_label_visible self;
              results_visible := results_visible self |}
  end.

(** [n] presses of the arrow key [k]. *)
Fixpoint press_arrow (n : nat) (k : key) (self : QuickOpen) : option QuickOpen :=
  match n with
  | O => Some self
  | S n' => self' ← keyPressEvent self k; press_arrow n' k self'
  end.

(** [QuickOpen.accept] *)
Definition QuickOpen_accept (self : QuickOpen) (w : gui) : QuickOpen * gui :=
  let selected := selected_result (qo_results self) in
  let '(d, w) := Dialog_accept (qo_dialog self) w in
  ({| qo_dialog := d;
      qo_results := qo_results self;
      qo_matches := qo_matches self;
      qo_selected_result := selected;
      help_label_visible := help_label_visible self;
      results_visible := results_visible self |}, w).

(** ** Filterable names list: the model *)

(** A NamesModel: the names it was given and its rows, each a text and the
    match positions, [None] for a row of the unfiltered list. *)
Record NamesModel := {
  nm_names : list unicode;
  nm_items : list (unicode * option (list Z));
}.

(** The roles [NamesModel.data] tells apart. *)
Inductive role : Type := UserRole | DisplayRole | OtherRole.

(** What [NamesModel.data] returns. *)
Inductive variant : Type :=
  | QVariant_item (item : unicode * option (list Z))
  | QVariant_text (text : unicode)
  | NONE.

Section Names.

(** [Matcher(names)(query)]: the matches as an ordered dictionary.  The
    matcher is not part of this module. *)
Variable matcher : list unicode → unicode → list (unicode * list Z).

(** [NamesModel.filter]: the model, and the flag sent with [filtered]. *)
Definition NamesModel_filter (self : NamesModel) (query : unicode)
  : NamesModel * bool :=
  match query with
  | [] =>
      ({| nm_names := nm_names self;
          nm_items := (λ text, (text, None)) <$> nm_names self |}, true)
  | _ :: _ =>
      ({| nm_names := nm_names self;
          nm_items := (λ m, (m.1, Some m.2)) <$> matcher (nm_names self) query |},
       false)
  end.

(** [NamesModel.set_names] *)
Definition set_names (self : NamesModel) (names : list unicode)
  : NamesModel * bool :=
  NamesModel_filter {| nm_names := names; nm_items := nm_items self |} [].

End Names.

(** [NamesModel.rowCount] *)
Definition rowCount (self : NamesModel) : Z := Py.len (nm_items self).

(** [NamesModel.data] for the row [row]; [None] stands for IndexError. *)
Definition NamesModel_data (self : NamesModel) (row : Z) (r : role)
  : option variant :=
  match r with
  | UserRole => QVariant_item <$> Py.item (nm_items self) row
  | DisplayRole => Some (QVariant_text (replicate 20 160%N))
  | OtherRole => Some NONE
  end.

(** The loop of [NamesModel.find_name] from row [i] on. *)
Fixpoint find_name_loop (items : list (unicode * option (list Z)))
    (name : unicode) (i : Z) : option Z :=
  match items with
  | [] => None
  | (text, positions) :: rest =>
      if bool_decide (text = name) then Some i
      else find_name_loop rest name (i + 1)
  end.

(** [NamesModel.find_name]; [None] when the loop ends without a row. *)
Definition find_name (self : NamesModel) (name : unicode) : option Z :=
  find_name_loop (nm_items self) name 0.

(** ** Arrange in folders *)

(** [s.lstrip(chars)] *)
Fixpoint lstrip_chars (chars s : unicode) : unicode :=
  match s with
  | [] => []
  | c :: s' => if bool_decide (c ∈ chars) then lstrip_chars chars s' else s
  end.

(** [s.strip(chars)] *)
Definition strip_chars (chars s : unicode) : unicode :=
  reverse (lstrip_chars chars (reverse (lstrip_chars chars s))).

(** The types of [RationalizeFolders.TYPE_MAP], with their labels. *)
Definition TYPE_MAP : list (unicode * unicode) := [
  (u "text", u "Text (HTML) files");
  (u "style", u "Style (CSS) files");
  (u "image", u "Images");
  (u "font", u "Fonts");
  (u "audio", u "Audio");
  (u "video", u "Video");
  (u "opf", u "OPF file (metadata)");
  (u "toc", u "Table of contents file (NCX)")
].

(** A RationalizeFolders dialog: [folder_edits] holds, under [typ], the
    text of the line edit stored as the attribute [<typ>_folder]. *)
Record RationalizeFolders := {
  rf_dialog : Dialog;
  folder_edits : gmap unicode unicode;
}.

(** The text [setup_ui] puts into the line edit of one type, [folders]
    being [tprefs['folders_for_types']]. *)
Definition folder_text (folders : gmap unicode unicode) (typ : unicode)
  : unicode :=
  let val := default [] (folders !! typ) in
  match val with
  | [] => val
  | _ :: _ => if negb (endswith val (u "/")) then val ++ u "/" else val
  end.

(** The line edits [RationalizeFolders.setup_ui] creates. *)
Definition RationalizeFolders_setup_ui (folders : gmap unicode unicode)
  : gmap unicode unicode :=
  foldl (λ edits item, <[item.1 := folder_text folders item.1]> edits)
    ∅ TYPE_MAP.

(** The loop of [folder_map] over the types [types]; [None] stands for the
    AttributeError of a line edit that does not exist. *)
Fixpoint folder_map_loop (edits : gmap unicode unicode)
    (types : list (unicode * unicode)) (ans : gmap unicode unicode)
  : option (gmap unicode unicode) :=
  match types with
  | [] => Some ans
  | (typ, _) :: rest =>
      text ← edits !! typ;
      folder_map_loop edits rest
        (<[typ := strip_chars (u "/") (strip text)]> ans)
  end.

(** [RationalizeFolders.folder_map] *)
Definition folder_map (self : RationalizeFolders)
  : option (gmap unicode unicode) :=
  folder_map_loop (folder_edits self) TYPE_MAP ∅.

(** [RationalizeFolders.accept]: the dialog, the new value of
    [tprefs['folders_for_types']], and the world. *)
Definition RationalizeFolders_accept (self : RationalizeFolders) (w : gui)
  : option (RationalizeFolders * gmap unicode unicode * gui) :=
  folders ← folder_map self;
  let '(d, w) := Dialog_accept (rf_dialog self) w in
  Some ({| rf_dialog := d; folder_edits := folder_edits self |}, folders, w).

(** A folder as [folder_map] stores it and takes it back unchanged: no
    white space and no slash at either end. *)
Definition clean_folder (v : unicode) : Prop :=
  stripped v ∧ head v ≠ Some 47%N ∧ last v ≠ Some 47%N.

(** [clean_folder], decided. *)
Definition clean_folderb (v : unicode) : bool :=
  match head v with
  | Some c => negb (isspace c) && negb (c =? 47)%N
  | None => true
  end &&
  match last v with
  | Some c => negb (isspace c) && negb (c =? 47)%N
  | None => true
  end.

(** ** ImportForeign: choosing the source *)

(** [ImportForeign.set_src] *)
Definition set_src (self : ImportForeign) (path : unicode) : ImportForeign :=
  let self := {| if_dialog := if_dialog self; src := path;
                 dest := dest self |} in
  {| if_dialog := if_dialog self; src := src self;
     dest := (ImportForeign_data self).2 |}.

(** [ImportForeign.choose_source], [path] being the list of files the
    chooser returned. *)
Definition choose_source (self : ImportForeign) (path : list unicode)
  : ImportForeign :=
  match path with
  | [] => self
  | first :: _ => set_src self first
  end.

(** ** Insert Semantics: the target line *)

(** The text [InsertSemantics.update_target] puts into the target line for
    the selected file and the selected anchor; [None] when no file is
    selected and the method returns at once. *)
Definition update_target_text (file anchor : option unicode)
  : option unicode :=
  match file with
  | None => None
  | Some name =>
      let frag :=
        match anchor with
        | Some ((_ :: _) as anchor) => u "#" ++ anchor
        | _ => []
        end in
      let href := name ++ frag in
      Some (match href with [] => u "#" | _ :: _ => href end)
  end.

(** The text [InsertSemantics.show_type] puts into the target line, with
    the signals of the line blocked. *)
Definition show_type_text (name : option unicode) (frag : option unicode)
  : unicode :=
  match name with
  | None => []
  | Some name =>
      name ++ match frag with
              | Some ((_ :: _) as frag) => u "#" ++ frag
              | _ => []
              end
  end.

(** The text [InsertSemantics.semantic_type_changed] shows for the current
    item type. *)
Definition semantic_type_changed_text (self : InsertSemantics) : unicode :=
  match final_type_map self !! semantic_type self with
  | Some (name, frag) => show_type_text (Some name) frag
  | None => show_type_text None None
  end.

(** ** Quick Open: the events of the dialog *)

(** What reaches a QuickOpen dialog between a query and [accept]: a key
    press, or the repaint of the result list that [self.update()] asks
    for. *)
Inductive quick_event : Type :=
  | KeyPress (k : key)
  | Repaint.

(** One event, in a dialog whose result list ends at [bottom]; [None] when
    a key goes on to [Dialog.keyPressEvent]. *)
Definition quick_step (bottom : Z) (self : QuickOpen) (e : quick_event)
  : option QuickOpen :=
  match e with
  | KeyPress k => keyPressEvent self k
  | Repaint =>
      Some {| qo_dialog := qo_dialog self;
              qo_results := (paintEvent (qo_results self) bottom).1;
              qo_matches := qo_matches self;
              qo_selected_result := qo_selected_result self;
              help_label_visible := help_label_visible self;
              results_visible := results_visible self |}
  end.

Fixpoint quick_run (bottom : Z) (self : QuickOpen) (events : list quick_event)
  : option QuickOpen :=
  match events with
  | [] => Some self
  | e :: rest =>
      match quick_step bottom self e with
      | Some self' => quick_run bottom self' rest
      | None => None
      end
  end.

(** The presses of the down arrow among [events]. *)
Fixpoint down_presses (events : list quick_event) : Z :=
  match events with
  | [] => 0
  | KeyPress Key_Down :: rest => 1 + down_presses rest
  | _ :: rest => down_presses rest
  end.
(** ** Lemmas on slices and indexing *)

Section PyLemmas.
Context {A : Type}.
Implicit Types s t : list A.

Lemma bound_inside s i : 0 ≤ i ≤ Py.len s → Py.bound s i = Z.to_nat i.
Proof.
  unfold Py.bound, Py.len. intros [H0 H1].
  destruct (Z.ltb_spec i 0); [lia|]. f_equal. lia.
Qed.

Lemma bound_beyond s i : Py.len s ≤ i → Py.bound s i = length s.
Proof.
  unfold Py.bound, Py.len. intros H.
  destruct (Z.ltb_spec i 0); lia.
Qed.

Lemma bound_of_nat s (n : nat) :
  Py.bound s (Z.of_nat n) = Nat.min n (length s).
Proof.
  unfold Py.bound. destruct (Z.ltb_spec (Z.of_nat n) 0); lia.
Qed.

Lemma item_of_nat s (n : nat) : Py.item s (Z.of_nat n) = s !! n.
Proof.
  unfold Py.item. destruct (Z.leb_spec 0 (Z.of_nat n)); [|lia].
  by rewrite Nat2Z.id.
Qed.

Lemma slice_to_of_nat s (n : nat) : Py.slice_to s (Z.of_nat n) = take n s.
Proof.
  unfold Py.slice_to. rewrite bound_of_nat.
  destruct (Nat.le_ge_cases n (length s)).
  - by rewrite Nat.min_l.
  - rewrite Nat.min_r by done. by rewrite !take_ge by lia.
Qed.

Lemma slice_from_of_nat s (n : nat) : Py.slice_from s (Z.of_nat n) = drop n s.
Proof.
  unfold Py.slice_from. rewrite bound_of_nat.
  destruct (Nat.le_ge_cases n (length s)).
  - by rewrite Nat.min_l.
  - rewrite Nat.min_r by done. by rewrite !drop_ge by lia.
Qed.

Lemma slice_of_nat s (n m : nat) :
  Py.slice s (Z.of_nat n) (Z.of_nat m) = take (m - n) (drop n s).
Proof.
  unfold Py.slice. rewrite !bound_of_nat.
  destruct (Nat.le_ge_cases n (length s)) as [Hn|Hn].
  - rewrite (Nat.min_l n) by done.
    destruct (Nat.le_ge_cases m (length s)) as [Hm|Hm].
    + by rewrite Nat.min_l.
    + rewrite Nat.min_r by done.
      rewrite !take_ge; [done| |]; rewrite length_drop; lia.
  - rewrite (Nat.min_r n) by done. by rewrite !drop_ge, !take_nil by lia.
Qed.

Lemma take_drop_window s t (n k b : nat) :
  take b t = take b s → (n + k ≤ b)%nat →
  take k (drop n t) = take k (drop n s).
Proof.
  intros Hb Hk. rewrite !take_drop_commute.
  replace (take (n + k) t) with (take (n + k) (take b t))
    by (rewrite take_take; f_equal; lia).
  replace (take (n + k) s) with (take (n + k) (take b s))
    by (rewrite take_take; f_equal; lia).
  by rewrite Hb.
Qed.

End PyLemmas.

(** ** The loop keeps its targets *)

Lemma get_char_of_nat (s : unicode) (n : nat) :
  (n < length s)%nat →
  get_char s (Z.of_nat n) = Some (take (char_units s n) (drop n s)).
Proof.
  intros Hn. unfold get_char, char_units. rewrite item_of_nat.
  destruct (lookup_lt_is_Some_2 s n Hn) as [c Hc]. rewrite Hc. simpl.
  f_equal. destruct (is_high_surrogate c).
  - replace (Z.of_nat n + 2) with (Z.of_nat (n + 2)) by lia.
    rewrite slice_of_nat. f_equal. lia.
  - replace (Z.of_nat n + 1) with (Z.of_nat (n + 1)) by lia.
    rewrite slice_of_nat. f_equal. lia.
Qed.

Lemma get_char_outside (s : unicode) (n : nat) :
  (length s ≤ n)%nat → get_char s (Z.of_nat n) = None.
Proof.
  intros Hn. unfold get_char. rewrite item_of_nat.
  by rewrite lookup_ge_None_2.
Qed.

Lemma char_units_pos (s : unicode) (n : nat) :
  (n < length s)%nat → (1 ≤ char_units s n ≤ 2)%nat.
Proof.
  intros Hn. unfold char_units.
  destruct (lookup_lt_is_Some_2 s n Hn) as [c ->].
  destruct (is_high_surrogate c); lia.
Qed.

Lemma char_end_of_nat (s : unicode) (n : nat) :
  (n < length s)%nat →
  char_end s (Z.of_nat n) =
    Z.of_nat (n + Nat.min (char_units s n) (length s - n)).
Proof.
  intros Hn. unfold char_end, Py.len. rewrite get_char_of_nat by done.
  simpl. rewrite length_take, length_drop. lia.
Qed.

Lemma char_end_bounds (s : unicode) (p : Z) :
  0 ≤ p < Py.len s → p < char_end s p ≤ Py.len s.
Proof.
  unfold Py.len. intros Hp.
  replace p with (Z.of_nat (Z.to_nat p)) by lia.
  rewrite char_end_of_nat by lia.
  pose proof (char_units_pos s (Z.to_nat p)). lia.
Qed.

(** A character that lies below [b] reads the same in every text that
    agrees with [esc] below [b]. *)
Lemma get_char_window (esc t : unicode) (n b : nat) :
  (n < length esc)%nat →
  take b t = take b esc →
  char_end esc (Z.of_nat n) ≤ Z.of_nat b →
  (b < length esc)%nat ∨ t = esc →
  (b ≤ length t)%nat →
  get_char t (Z.of_nat n) = get_char esc (Z.of_nat n) ∧
  (n + length (default [] (get_char esc (Z.of_nat n))) ≤ b)%nat.
Proof.
  intros Hn Hb Hend Hcase Hbt.
  rewrite char_end_of_nat in Hend by done.
  pose proof (char_units_pos esc n Hn) as Hu.
  rewrite (get_char_of_nat esc) by done. simpl.
  rewrite length_take, length_drop.
  destruct Hcase as [Hlt| ->].
  - assert (Hk : (n + char_units esc n ≤ b)%nat) by lia.
    assert (Hlook : t !! n = esc !! n).
    { rewrite <- (lookup_take_lt t b n), <- (lookup_take_lt esc b n) by lia.
      by rewrite Hb. }
    assert (Hunits : char_units t n = char_units esc n)
      by (unfold char_units; by rewrite Hlook).
    split; [|lia].
    rewrite get_char_of_nat by lia. rewrite Hunits. f_equal.
    by apply take_drop_window with b.
  - split; [|lia]. by rewrite get_char_of_nat.
Qed.

Lemma highlight_loop_window (emph esc : unicode) (ds : list Z) :
  ∀ (t : unicode) (b : nat),
    take b t = take b esc →
    (b < length esc)%nat ∨ t = esc →
    (b ≤ length t)%nat →
    fits esc (Z.of_nat b) ds →
    highlight_loop emph t ds =
      Some (emphasized emph esc (Z.of_nat b) ds ++ drop b t).
Proof.
  induction ds as [|d ds IH]; intros t b Hb Hcase Hbt Hfits;
    cbn [highlight_loop emphasized].
  - change 0 with (Z.of_nat 0). rewrite slice_of_nat, Nat.sub_0_r, drop_0.
    rewrite <- Hb. by rewrite take_drop.
  - destruct Hfits as (Hd & Hend & Hrest).
    unfold Py.len in Hd.
    set (n := Z.to_nat d). assert (Hdn : d = Z.of_nat n) by lia.
    rewrite Hdn in *. clearbody n. clear Hdn d.
    destruct (get_char_window esc t n b) as [Hch Hlen]; try done; try lia.
    rewrite Hch.
    destruct (get_char esc (Z.of_nat n)) as [ch|] eqn:Hesc;
      [|by rewrite get_char_of_nat in Hesc by lia].
    cbn [mbind option_bind default from_option id] in *.
    assert (Hce : char_end esc (Z.of_nat n) = Z.of_nat (n + length ch)).
    { unfold char_end, Py.len. rewrite Hesc. simpl. lia. }
    rewrite Hce.
    unfold Py.len.
    replace (Z.of_nat n + Z.of_nat (length ch))
      with (Z.of_nat (n + length ch)) by lia.
    rewrite slice_to_of_nat, slice_from_of_nat, slice_of_nat.
    assert (Hnb : (n < b)%nat).
    { rewrite get_char_of_nat in Hesc by lia. injection Hesc as <-.
      rewrite length_take, length_drop in Hlen.
      pose proof (char_units_pos esc n). lia. }
    assert (Htake : take n t = take n esc).
    { replace (take n t) with (take n (take b t))
        by (rewrite take_take; f_equal; lia).
      rewrite Hb, take_take. f_equal. lia. }
    rewrite (IH _ n); try done.
    + f_equal. rewrite <- !(assoc_L (++)). f_equal.
      rewrite drop_app_length' by (rewrite length_take; lia).
      f_equal. f_equal. f_equal.
      rewrite <- (drop_take_drop t (n + length ch) b) by lia.
      f_equal. rewrite Hb, take_drop_commute. do 2 f_equal. lia.
    + rewrite take_app_le by (rewrite length_take; lia).
      by rewrite take_idemp.
    + left. lia.
    + rewrite length_app, length_take. lia.
Qed.

(** ** The order of the positions *)

Local Instance flip_le_total : Total (flip Z.le).
Proof. intros x y. unfold flip. lia. Qed.

Lemma sorted_positions_elem (P : list Z) (p : Z) :
  p ∈ sorted_positions P ↔ p ∈ P ∧ p ≠ -1.
Proof.
  unfold sorted_positions. rewrite merge_sort_Permutation.
  rewrite elem_of_elements, elem_of_difference, elem_of_list_to_set.
  rewrite elem_of_singleton. done.
Qed.

Lemma sorted_positions_NoDup (P : list Z) : NoDup (sorted_positions P).
Proof.
  unfold sorted_positions. rewrite merge_sort_Permutation.
  apply NoDup_elements.
Qed.

Lemma descending_strict (l : list Z) :
  StronglySorted (flip Z.le) l → NoDup l → StronglySorted Z.gt l.
Proof.
  induction 1 as [|x l Hl IH Hx]; intros Hnd; constructor.
  - apply IH. by apply NoDup_cons in Hnd as [_ ?].
  - apply NoDup_cons in Hnd as [Hx' _].
    rewrite Forall_forall in Hx |- *. intros y Hy.
    specialize (Hx y Hy). unfold flip in Hx.
    assert (y ≠ x) by (intros ->; done). lia.
Qed.

Lemma sorted_positions_descending (P : list Z) :
  StronglySorted Z.gt (sorted_positions P).
Proof.
  apply descending_strict; [|apply sorted_positions_NoDup].
  apply Sorted_StronglySorted.
  - intros x y z. unfold flip. lia.
  - unfold sorted_positions. apply (Sorted_merge_sort (flip Z.le)).
Qed.

(** Sorting depends on the set of positions only. *)
Lemma sorted_positions_ext (P Q : list Z) :
  (∀ p, p ≠ -1 → p ∈ P ↔ p ∈ Q) → sorted_positions P = sorted_positions Q.
Proof.
  intros H. unfold sorted_positions. do 2 f_equal.
  apply set_eq. intros p.
  rewrite !elem_of_difference, !elem_of_list_to_set, elem_of_singleton.
  specialize (H p). tauto.
Qed.

Lemma valid_positionsb_spec (s : unicode) (P : list Z) :
  valid_positionsb s P = true →
  ∀ p, p ∈ P → p ≠ -1 →
    0 ≤ p < Py.len s ∧
    ∀ q, q ∈ P → q ≠ -1 → p < q → char_end s p ≤ q.
Proof.
  unfold valid_positionsb. rewrite forallb_forall.
  intros H p Hp Hne. apply list_elem_of_In in Hp.
  specialize (H p Hp). rewrite orb_true_iff, !andb_true_iff in H.
  destruct H as [H|[[H0 H1] H2]]; [lia|].
  split; [lia|]. intros q Hq Hqne Hlt.
  rewrite forallb_forall in H2. apply list_elem_of_In in Hq.
  specialize (H2 q Hq). rewrite !orb_true_iff in H2. lia.
Qed.

Lemma fits_descending (esc : unicode) (ds : list Z) :
  StronglySorted Z.gt ds →
  (∀ d, d ∈ ds →
     0 ≤ d < Py.len esc ∧ ∀ q, q ∈ ds → d < q → char_end esc d ≤ q) →
  ∀ b, (∀ d, d ∈ ds → char_end esc d ≤ b) → fits esc b ds.
Proof.
  induction 1 as [|x l Hl IH Hx]; intros Hv b Hb; [done|].
  cbn [fits]. split_and!.
  - apply Hv. by left.
  - apply Hv. by left.
  - apply Hb. by left.
  - apply IH.
    + intros d Hd. destruct (Hv d) as [H0 H1]; [by right|].
      split; [done|]. intros q Hq. apply H1. by right.
    + intros d Hd. destruct (Hv d) as [H0 H1]; [by right|].
      apply H1; [by left|].
      rewrite Forall_forall in Hx. specialize (Hx d Hd). lia.
Qed.


(** ** Highlighted text: the properties *)

Lemma make_highlighted_text_valid
    (prep : unicode → unicode) (emph S : unicode) (P : list Z) :
  valid_positionsb (prep S) P = true →
  make_highlighted_text prep emph S P =
    Some (emphasized emph (prep S) (Py.len (prep S)) (sorted_positions P)).
Proof.
  intros Hvalid.
  pose proof (sorted_positions_descending P) as Hsorted.
  pose proof (valid_positionsb_spec _ _ Hvalid) as Hv.
  unfold make_highlighted_text.
  rewrite (highlight_loop_window emph (prep S) _ (prep S) (length (prep S))).
  - by rewrite drop_all, app_nil_r.
  - done.
  - by right.
  - done.
  - apply fits_descending; [done| |].
    + intros d Hd. apply sorted_positions_elem in Hd as [Hd Hne].
      destruct (Hv d Hd Hne) as [H0 H1]. split; [done|].
      intros q Hq. apply sorted_positions_elem in Hq as [Hq Hqne]. eauto.
    + intros d Hd. apply sorted_positions_elem in Hd as [Hd Hne].
      destruct (Hv d Hd Hne) as [H0 _].
      apply char_end_bounds. done.
Qed.

(** C1. For valid character positions [P] of the escaped string,
    [make_highlighted_text] walks the positions of [P] other than -1 in
    strictly descending order, and its result is the escaped string with
    exactly the characters that stood at those positions before any markup
    was inserted wrapped in a span each: a span put around a later
    character moves the target of no earlier position. *)
Theorem make_highlighted_text_keeps_targets
    (prepare_string_for_xml : unicode → unicode)
    (emph S : unicode) (P : list Z) :
  valid_positionsb (prepare_string_for_xml S) P = true →
  let esc := prepare_string_for_xml S in
  let ds := sorted_positions P in
  StronglySorted Z.gt ds ∧
  (∀ p, p ∈ ds ↔ p ∈ P ∧ p ≠ -1) ∧
  make_highlighted_text prepare_string_for_xml emph S P =
    Some (emphasized emph esc (Py.len esc) ds).
Proof.
  intros Hvalid esc ds. split_and!.
  - apply sorted_positions_descending.
  - apply sorted_positions_elem.
  - by apply make_highlighted_text_valid.
Qed.

Lemma make_highlighted_text_keeps_targets_witness :
  valid_positionsb (xml_escape (u "a<b")) [5; -1; 0; 5] = true ∧
  make_highlighted_text xml_escape (u "e") (u "a<b") [5; -1; 0; 5] =
    Some (emphasized (u "e") (xml_escape (u "a<b")) 6 [5; 0]).
Proof.
  split; [reflexivity|].
  exact (proj2 (proj2 (make_highlighted_text_keeps_targets
    xml_escape (u "e") (u "a<b") [5; -1; 0; 5] eq_refl))).
Defined.

(** C6. With no positions the result is the XML-escaped string and nothing
    else: no span is inserted. *)
Theorem make_highlighted_text_no_positions
    (prepare_string_for_xml : unicode → unicode) (emph S : unicode) :
  make_highlighted_text prepare_string_for_xml emph S [] =
    Some (prepare_string_for_xml S).
Proof. reflexivity. Qed.

(** C9. Positions index the escaped string, not the raw one: in the raw
    string a&b an ampersand stands before index 2 and the character at
    index 2 is b, while the character emphasized for position 2 is the a of
    the entity the ampersand was expanded to. *)
Theorem make_highlighted_text_indexes_escaped (emph : unicode) :
  ∃ (S : unicode) (p : Z) (raw_ch shown_ch : unicode),
    (∃ i, 0 ≤ i < p ∧ Py.item S i = Some 38%N) ∧
    get_char S p = Some raw_ch ∧
    make_highlighted_text xml_escape emph S [p] =
      Some (Py.slice_to (xml_escape S) p ++ span emph shown_ch ++
            Py.slice_from (xml_escape S) (p + 1)) ∧
    get_char (xml_escape S) p = Some shown_ch ∧
    shown_ch ≠ raw_ch.
Proof.
  exists (u "a&b"), 2, (u "b"), (u "a").
  split_and!; try reflexivity.
  - exists 1. split; [lia|reflexivity].
  - discriminate.
Qed.

(** A position inside a surrogate pair is no character position: with both
    halves listed, the span of the second half is cut by the first. *)
Example make_highlighted_text_split_pair :
  valid_positionsb [55357; 56832]%N [0; 1] = false ∧
  make_highlighted_text (λ x, x) [] [55357; 56832]%N [0; 1] =
    Some (span [] ([55357%N] ++ u "<") ++ u "span style=" ++ [34; 34]%N ++
          u ">" ++ [56832%N] ++ u "</span>").
Proof. split; reflexivity. Qed.

(** ** The sentinel position *)

Lemma discard_sentinel_elem (P : list Z) (p : Z) :
  p ∈ discard_sentinel P ↔ p ∈ P ∧ p ≠ -1.
Proof. unfold discard_sentinel. rewrite list_elem_of_filter. tauto. Qed.

Lemma sorted_positions_discard (P : list Z) :
  sorted_positions (discard_sentinel P) = sorted_positions P.
Proof.
  apply sorted_positions_ext. intros p Hp.
  rewrite discard_sentinel_elem. tauto.
Qed.

Lemma sorted_positions_idemp (P : list Z) :
  sorted_positions (sorted_positions P) = sorted_positions P.
Proof.
  apply sorted_positions_ext. intros p Hp.
  rewrite sorted_positions_elem. tauto.
Qed.

(** C2, as stated, fails for the delegate: a -1 next to position 0 makes
    [NamesDelegate.paint] draw the plain text, while the same positions
    without the -1 draw the text with its first character emphasized. *)
Lemma NamesDelegate_paint_sentinel_counterexample :
  NamesDelegate_paint xml_escape (u "ab") (Some [0; -1]) =
    Some (DrawText (u "ab")) ∧
  NamesDelegate_paint xml_escape (u "ab") (Some (discard_sentinel [0; -1])) =
    Some (DrawContents
      (u "<body>" ++ span Results_const.EMPH (u "a") ++ u "b</body>")) ∧
  NamesDelegate_paint xml_escape (u "ab") (Some [0; -1]) ≠
  NamesDelegate_paint xml_escape (u "ab") (Some (discard_sentinel [0; -1])).
Proof. split_and!; [reflexivity|reflexivity|discriminate]. Qed.

(** C2, amended. [make_highlighted_text] gives for [P] what it gives for
    [P] without its -1 entries. [NamesDelegate.paint] draws the plain,
    unmarked text as soon as -1 occurs anywhere in [P], whatever else [P]
    holds, and otherwise draws the body-wrapped result of
    [make_highlighted_text] for [P]. *)
Theorem sentinel_excluded
    (prepare_string_for_xml : unicode → unicode)
    (emph S : unicode) (P : list Z) :
  make_highlighted_text prepare_string_for_xml emph S P =
    make_highlighted_text prepare_string_for_xml emph S (discard_sentinel P) ∧
  ((-1) ∈ P →
     NamesDelegate_paint prepare_string_for_xml S (Some P) =
       Some (DrawText S)) ∧
  ((-1) ∉ P →
     NamesDelegate_paint prepare_string_for_xml S (Some P) =
       html ← make_highlighted_text prepare_string_for_xml
                Results_const.EMPH S P;
       Some (DrawContents (u "<body>" ++ html ++ u "</body>"))).
Proof.
  split_and!.
  - unfold make_highlighted_text. by rewrite sorted_positions_discard.
  - intros Hin. unfold NamesDelegate_paint. by rewrite bool_decide_eq_true_2.
  - intros Hnotin. unfold NamesDelegate_paint.
    rewrite bool_decide_eq_false_2 by done.
    unfold make_highlighted_text. by rewrite sorted_positions_idemp.
Qed.

Lemma sentinel_excluded_witness :
  (-1) ∈ [3; -1; 0] ∧ ((-1) ∉ [1; 0]) ∧
  NamesDelegate_paint xml_escape (u "a&b") (Some [3; -1; 0]) =
    Some (DrawText (u "a&b")) ∧
  NamesDelegate_paint xml_escape (u "a&b") (Some [1; 0]) =
    html ← make_highlighted_text xml_escape Results_const.EMPH (u "a&b") [1; 0];
    Some (DrawContents (u "<body>" ++ html ++ u "</body>")).
Proof.
  assert (H1 : (-1) ∈ [3; -1; 0]) by (apply list_elem_of_In; simpl; auto).
  assert (H2 : (-1) ∉ [1; 0]) by (rewrite list_elem_of_In; simpl; lia).
  split_and!; [done|done| |].
  - exact (proj1 (proj2 (sentinel_excluded xml_escape (u "e") (u "a&b")
      [3; -1; 0])) H1).
  - exact (proj2 (proj2 (sentinel_excluded xml_escape (u "e") (u "a&b")
      [1; 0])) H2).
Defined.

(** ** The result list: selection *)

(** C4. Selection clamps and never wraps.  With results present and the
    selection inside [0, max_result]: one step back from index 0 and one
    step forward from [max_result] leave the widget as it is, a step that
    stays inside the range is taken, and after a step of any size the
    selection is still inside [0, max_result].  With no results every step
    leaves the widget as it is. *)
Theorem change_current_clamps (self : Results) (delta : Z) :
  (results self ≠ [] →
   0 ≤ current_result self ≤ max_result self →
     (current_result self = 0 → change_current self (-1) = self) ∧
     (current_result self = max_result self → change_current self 1 = self) ∧
     (0 ≤ current_result self + delta ≤ max_result self →
        current_result (change_current self delta) =
          current_result self + delta) ∧
     0 ≤ current_result (change_current self delta)
       ≤ max_result (change_current self delta)) ∧
  (results self = [] → change_current self delta = self).
Proof.
  unfold change_current. split.
  - intros Hne Hinv. destruct (results self) as [|r rows] eqn:Hres; [done|].
    split; [|split; [|split]].
    + intros H0. rewrite H0. reflexivity.
    + intros Hmax. rewrite Hmax.
      destruct (Z.leb_spec (max_result self + 1) (max_result self)); [lia|].
      by rewrite andb_false_r.
    + intros Hin.
      destruct (Z.leb_spec 0 (current_result self + delta)); [|lia].
      destruct (Z.leb_spec (current_result self + delta) (max_result self));
        [|lia].
      reflexivity.
    + destruct (Z.leb_spec 0 (current_result self + delta));
      destruct (Z.leb_spec (current_result self + delta) (max_result self));
        simpl; lia.
  - intros ->. reflexivity.
Qed.

Lemma change_current_clamps_witness :
  let row := ({| markup := u "<b>a</b>"; height := 10 |},
              {| markup := u "a"; height := 10 |}, u "a") in
  let self := {| results := [row; row; row]; current_result := 2;
                 max_result := 2; mouse_hover_result := -1; updates := 0 |} in
  change_current self 1 = self ∧
  current_result (change_current self (-1)) = 1 ∧
  0 ≤ current_result (change_current self (-7))
    ≤ max_result (change_current self (-7)) ∧
  change_current Results_init 1 = Results_init.
Proof.
  intros row self.
  assert (Hne : results self ≠ []) by discriminate.
  assert (Hinv : 0 ≤ current_result self ≤ max_result self) by (simpl; lia).
  split; [|split; [|split]].
  - exact (proj1 (proj2 (proj1 (change_current_clamps self 1) Hne Hinv))
             eq_refl).
  - refine (proj1 (proj2 (proj2 (proj1 (change_current_clamps self (-1))
             Hne Hinv))) _). simpl; lia.
  - exact (proj2 (proj2 (proj2 (proj1 (change_current_clamps self (-7))
             Hne Hinv)))).
  - exact (proj2 (change_current_clamps Results_init 1) eq_refl).
Defined.

(** ** The result list: windowing *)

Lemma make_rows_length prep text_height matches rows :
  make_rows prep text_height matches = Some rows →
  length rows = length matches.
Proof.
  revert rows. induction matches as [|[text positions] rest IH];
    intros rows; cbn [make_rows].
  - by intros [= <-].
  - destruct (make_text prep text_height text positions) as [full|];
      [|done]. cbn [mbind option_bind].
    destruct (make_rows prep text_height rest) as [rows'|]; [|done].
    cbn [mbind option_bind]. intros [= <-]. simpl. f_equal. by apply IH.
Qed.

Lemma make_rows_height prep text_height matches rows h :
  (∀ s, text_height s = h) →
  make_rows prep text_height matches = Some rows →
  Forall (λ r, height r.1.1 = h) rows.
Proof.
  intros Hh. revert rows. induction matches as [|[text positions] rest IH];
    intros rows; cbn [make_rows].
  - intros [= <-]. constructor.
  - destruct (make_text prep text_height text positions) as [full|];
      [|done]. cbn [mbind option_bind].
    destruct (make_rows prep text_height rest) as [rows'|]; [|done].
    cbn [mbind option_bind]. intros [= <-]. constructor; [apply Hh|].
    by apply IH.
Qed.

Lemma make_rows_total prep text_height matches :
  valid_matches prep matches = true →
  is_Some (make_rows prep text_height matches).
Proof.
  induction matches as [|[text positions] rest IH]; cbn [make_rows].
  - by eexists.
  - unfold valid_matches. cbn [forallb]. rewrite andb_true_iff.
    intros [Hv Hrest]. destruct (IH Hrest) as [rows ->].
    unfold make_text. simpl in Hv.
    rewrite (make_highlighted_text_valid prep _ _ _ Hv). by eexists.
Qed.

(** Row [i] of uniform height [h] ends at or above [bottom] exactly when
    it is one of the first [capacity h bottom] rows. *)
Lemma row_fits_capacity (h bottom i : Z) :
  0 < h → 0 ≤ i →
  (i * (h + Results_const.MARGIN) + h >? bottom) = false ↔
  i < capacity h bottom.
Proof.
  intros Hh Hi. unfold capacity, Results_const.MARGIN.
  rewrite Z.gtb_ltb, Z.ltb_ge.
  destruct (Z.ltb_spec bottom h) as [Hlt|Hge].
  - split; [nia|lia].
  - assert (Hpos : 0 < h + 4) by lia.
    pose proof (Z.div_mod (bottom - h) (h + 4) ltac:(lia)) as Hdm.
    pose proof (Z.mod_pos_bound (bottom - h) (h + 4) Hpos) as Hmod.
    split; intros H; nia.
Qed.

Lemma capacity_nonneg (h bottom : Z) : 0 < h → 0 ≤ capacity h bottom.
Proof.
  intros Hh. unfold capacity, Results_const.MARGIN.
  destruct (Z.ltb_spec bottom h); [lia|].
  pose proof (Z.div_pos (bottom - h) (h + 4)). lia.
Qed.

Lemma paint_rows_uniform (h bottom : Z)
    (rows : list (QStaticText * QStaticText * unicode)) :
  0 < h →
  Forall (λ r, height r.1.1 = h) rows →
  ∀ i m, 0 ≤ i →
    let k := Z.max 0 (Z.min (Py.len rows) (capacity h bottom - i)) in
    paint_rows bottom rows i (i * (h + Results_const.MARGIN)) m =
      (if k =? 0 then m else i + k - 1,
       (λ j, (j, j * (h + Results_const.MARGIN) + Results_const.MARGIN / 2))
         <$> seqZ i k).
Proof.
  intros Hh Hrows. induction Hrows as [|[[prefix full] text] rows Hr _ IH];
    intros i m Hi k.
  - assert (Hk : k = 0) by (subst k; unfold Py.len; simpl; lia).
    rewrite Hk. reflexivity.
  - simpl in Hr. cbn [paint_rows]. rewrite Hr.
    pose proof (row_fits_capacity h bottom i Hh Hi) as Hfit.
    destruct (i * (h + Results_const.MARGIN) + h >? bottom) eqn:Hgt.
    + assert (Hk : k = 0).
      { subst k. destruct (Z.lt_ge_cases i (capacity h bottom)) as [Hlt|Hge].
        - apply Hfit in Hlt. done.
        - lia. }
      rewrite Hk. reflexivity.
    + assert (Hlt : i < capacity h bottom) by (by apply Hfit).
      replace (i * (h + Results_const.MARGIN) + Results_const.MARGIN / 2
               + h + Results_const.MARGIN / 2)
        with ((i + 1) * (h + Results_const.MARGIN))
        by (unfold Results_const.MARGIN;
            change (4 / 2) with 2; lia).
      rewrite (IH (i + 1) i) by lia.
      set (k' := Z.max 0 (Z.min (Py.len rows) (capacity h bottom - (i + 1)))).
      assert (Hk : k = k' + 1).
      { subst k k'. unfold Py.len. rewrite length_cons. lia. }
      assert (Hk' : 0 ≤ k') by (subst k'; lia).
      rewrite Hk. f_equal.
      * destruct (Z.eqb_spec k' 0); destruct (Z.eqb_spec (k' + 1) 0); lia.
      * rewrite (seqZ_cons i (k' + 1)) by lia. rewrite fmap_cons.
        replace (Z.succ i) with (i + 1) by lia.
        replace (Z.pred (k' + 1)) with k' by lia. reflexivity.
Qed.

(** C3, as stated, fails: with twelve results and room for all of them,
    painting leaves [max_result] at 11, and eleven steps forward select the
    twelfth row, although min(N, C, 11) is 11. *)
Lemma result_windowing_counterexample :
  let matches := (λ c, ([c], [])) <$> [97; 98; 99; 100; 101; 102; 103; 104;
                                        105; 106; 107; 108]%N in
  ∃ st st' laid_out,
    Results_call xml_escape (λ _, 10) Results_init matches = Some st ∧
    paintEvent st 999 = (st', laid_out) ∧
    Py.len (results st') = 12 ∧
    capacity 10 999 = 71 ∧
    max_result st' = 11 ∧
    current_result (change_current_times 11 st' 1) = 11 ∧
    max_result st' + 1 ≠ Z.min (Z.min 12 (capacity 10 999)) 11.
Proof.
  intros matches.
  destruct (Results_call xml_escape (λ _, 10) Results_init matches)
    as [st|] eqn:Hst; [|vm_compute in Hst; discriminate].
  destruct (paintEvent st 999) as [st' laid_out] eqn:Hpaint.
  exists st, st', laid_out.
  vm_compute in Hst. injection Hst as <-.
  vm_compute in Hpaint. injection Hpaint as <- <-.
  split_and!; try reflexivity. vm_compute. discriminate.
Qed.

Lemma change_current_keeps (self : Results) (delta : Z) :
  results self ≠ [] →
  0 ≤ current_result self ≤ max_result self →
  results (change_current self delta) = results self ∧
  max_result (change_current self delta) = max_result self ∧
  0 ≤ current_result (change_current self delta) ≤ max_result self.
Proof.
  intros Hne Hcur. unfold change_current.
  destruct (results self) as [|r rs] eqn:Hres; [done|].
  destruct (Z.leb_spec 0 (current_result self + delta));
  destruct (Z.leb_spec (current_result self + delta) (max_result self));
    cbn [andb update results max_result current_result]; rewrite ?Hres;
    split_and!; try done; lia.
Qed.

Lemma paintEvent_uniform (h bottom : Z) (self : Results) :
  0 < h →
  Forall (λ r, height r.1.1 = h) (results self) →
  let k := Z.min (Py.len (results self)) (capacity h bottom) in
  results (paintEvent self bottom).1 = results self ∧
  current_result (paintEvent self bottom).1 = current_result self ∧
  max_result (paintEvent self bottom).1 =
    (if k =? 0 then max_result self else k - 1) ∧
  (paintEvent self bottom).2 =
    (λ j, (j, j * (h + Results_const.MARGIN) + Results_const.MARGIN / 2))
      <$> seqZ 0 k.
Proof.
  intros Hh Hhs k. unfold paintEvent.
  pose proof (paint_rows_uniform h bottom (results self) Hh Hhs 0
    (max_result self) ltac:(lia)) as Hpaint.
  cbn zeta in Hpaint. rewrite Z.mul_0_l in Hpaint. rewrite Hpaint.
  pose proof (capacity_nonneg h bottom Hh) as Hcap.
  rewrite Z.sub_0_r, Z.add_0_l.
  replace (Z.max 0 (Z.min (Py.len (results self)) (capacity h bottom)))
    with k by (subst k; unfold Py.len; lia).
  by cbn [fst snd results current_result max_result].
Qed.

Lemma window_run_range (h bottom : Z) (events : list window_event) :
  0 < h →
  ∀ self,
    Forall (λ r, height r.1.1 = h) (results self) →
    results self ≠ [] →
    (Z.min (Py.len (results self)) (capacity h bottom) ≠ 0 →
     max_result self =
       Z.min (Py.len (results self)) (capacity h bottom) - 1) →
    0 ≤ current_result self ≤ max_result self →
    let self' := foldl (window_step bottom) self events in
    results self' = results self ∧
    max_result self' = max_result self ∧
    0 ≤ current_result self' ≤ max_result self.
Proof.
  intros Hh. induction events as [|e events IH];
    intros self Hhs Hne Hmax Hcur; cbn [foldl].
  - done.
  - assert (Hstep :
      results (window_step bottom self e) = results self ∧
      max_result (window_step bottom self e) = max_result self ∧
      0 ≤ current_result (window_step bottom self e) ≤ max_result self).
    { destruct e as [delta|]; cbn [window_step].
      - by apply change_current_keeps.
      - destruct (paintEvent_uniform h bottom self Hh Hhs)
          as (Hr & Hc & Hm & _).
        rewrite Hr, Hc, Hm. split_and!; try done; try lia.
        destruct (Z.eqb_spec (Z.min (Py.len (results self))
          (capacity h bottom)) 0) as [|Hk]; [done|].
        by rewrite Hmax. }
    destruct Hstep as (Hr & Hm & Hc).
    destruct (IH (window_step bottom self e)) as (Hr' & Hm' & Hc').
    + by rewrite Hr.
    + by rewrite Hr.
    + by rewrite Hr, Hm.
    + by rewrite Hm.
    + cbn zeta. rewrite Hr', Hm', Hr, Hm. split_and!; try done; lia.
Qed.

Lemma change_current_reach (self : Results) (j : Z) :
  results self ≠ [] →
  current_result self = 0 →
  0 ≤ j ≤ max_result self →
  current_result (change_current self j) = j.
Proof.
  intros Hne Hcur Hj. unfold change_current.
  destruct (results self) as [|r rs]; [done|]. rewrite Hcur, Z.add_0_l.
  destruct (Z.leb_spec 0 j); [|lia].
  destruct (Z.leb_spec j (max_result self)); [|lia]. reflexivity.
Qed.

(** C3, amended. For [N] matches with valid positions and rows of one
    height [h]: [Results.__call__] installs [N] rows and leaves
    [max_result] at min(10, N - 1).  A [paintEvent] in a widget with room
    for [C = capacity h bottom] rows lays out the first min(N, C) rows and
    no others, and when it lays out a row at all it moves [max_result] to
    min(N, C) - 1, with no cap at eleven rows.  After that paint
    [change_current] can move the selection to each of the rows 0 to
    [max_result] and, whatever steps it is called with and however often
    the widget is painted again in between, to no other row: the rows and
    [max_result] stay as that paint left them. *)
Theorem result_windowing
    (prepare_string_for_xml : unicode → unicode) (text_height : unicode → Z)
    (self : Results) (matches : list (unicode * list Z)) (h bottom : Z) :
  valid_matches prepare_string_for_xml matches = true →
  (∀ s, text_height s = h) →
  0 < h →
  ∃ st,
    Results_call prepare_string_for_xml text_height self matches = Some st ∧
    let N := Py.len matches in
    let k := Z.min N (capacity h bottom) in
    let painted := (paintEvent st bottom).1 in
    Py.len (results st) = N ∧
    max_result st = Z.min 10 (N - 1) ∧
    (paintEvent st bottom).2 =
      (λ j, (j, j * (h + Results_const.MARGIN) + Results_const.MARGIN / 2))
        <$> seqZ 0 k ∧
    max_result painted = (if k =? 0 then Z.min 10 (N - 1) else k - 1) ∧
    (∀ j, 0 ≤ j ≤ max_result painted →
       current_result (change_current painted j) = j) ∧
    (0 < N → ∀ events,
       let shown := foldl (window_step bottom) painted events in
       results shown = results st ∧
       max_result shown = max_result painted ∧
       0 ≤ current_result shown ≤ max_result painted).
Proof.
  intros Hvalid Hheight Hh.
  assert (Hrows : ∃ rows,
    match matches with
    | [] => Some []
    | _ :: _ => make_rows prepare_string_for_xml text_height matches
    end = Some rows ∧
    length rows = length matches ∧
    Forall (λ r, height r.1.1 = h) rows).
  { destruct matches as [|m rest].
    - exists []. by repeat split.
    - destruct (make_rows_total prepare_string_for_xml text_height
        (m :: rest) Hvalid) as [rows Hr].
      exists rows. split_and!; [done| |].
      + by apply make_rows_length in Hr.
      + by apply make_rows_height with (h := h) in Hr. }
  destruct Hrows as (rows & Hr & Hlen & Hhs).
  unfold Results_call. rewrite Hr. cbn [mbind option_bind].
  eexists. split; [reflexivity|].
  cbn [results max_result update]. unfold Py.len. rewrite Hlen.
  split; [done|]. split; [done|].
  unfold paintEvent. cbn [results max_result update].
  pose proof (paint_rows_uniform h bottom rows Hh Hhs 0
    (Z.min 10 (Z.of_nat (length matches) - 1)) ltac:(lia)) as Hpaint.
  cbn zeta in Hpaint. rewrite Z.mul_0_l in Hpaint. rewrite Hpaint.
  pose proof (capacity_nonneg h bottom Hh) as Hcap.
  unfold Py.len. rewrite Hlen, Z.sub_0_r.
  replace (Z.max 0 (Z.min (Z.of_nat (length matches)) (capacity h bottom)))
    with (Z.min (Z.of_nat (length matches)) (capacity h bottom)) by lia.
  cbn [fst snd max_result current_result mouse_hover_result updates].
  rewrite Z.add_0_l.
  set (k := Z.min (Z.of_nat (length matches)) (capacity h bottom)).
  set (m := if k =? 0 then Z.min 10 (Z.of_nat (length matches) - 1)
            else k - 1).
  set (painted := {| results := rows; max_result := m |}).
  assert (Hm : 0 < Z.of_nat (length matches) → 0 ≤ m).
  { intros HN. subst m k. destruct (Z.eqb_spec (Z.min (Z.of_nat
      (length matches)) (capacity h bottom)) 0); lia. }
  assert (Hne : 0 < Z.of_nat (length matches) →
    results painted ≠ [] ∧ current_result painted = 0).
  { intros HN. subst painted. cbn [results current_result].
    destruct matches as [|mt ms]; [simpl in HN; lia|].
    split; [|done]. by destruct rows. }
  split; [done|]. split; [done|]. split.
  - intros j Hj. cbn [max_result] in Hj.
    destruct (Z.lt_ge_cases 0 (Z.of_nat (length matches))) as [HN|HN].
    + destruct (Hne HN) as [Hres Hcur]. by apply change_current_reach.
    + exfalso. subst m k.
      destruct (Z.eqb_spec (Z.min (Z.of_nat (length matches))
        (capacity h bottom)) 0); lia.
  - intros HN events. destruct (Hne HN) as [Hres Hcur].
    apply (window_run_range h bottom events Hh painted).
    + exact Hhs.
    + exact Hres.
    + subst painted. cbn [results max_result]. unfold Py.len.
      rewrite Hlen. fold k. intros Hk. subst m.
      by destruct (Z.eqb_spec k 0).
    + rewrite Hcur. cbn [max_result]. by split; [|apply Hm].
Qed.

Lemma result_windowing_witness :
  ∃ st,
    Results_call xml_escape (λ _, 10) Results_init
      [(u "a/b.html", [2; 0]); (u "c&d", [-1]); (u "e", [0])] = Some st ∧
    Py.len (results st) = 3 ∧
    max_result st = 2 ∧
    (paintEvent st 30).2 = [(0, 2); (1, 16)] ∧
    max_result (paintEvent st 30).1 = 1 ∧
    current_result (change_current (paintEvent st 30).1 1) = 1 ∧
    current_result
      (foldl (window_step 30) (paintEvent st 30).1
         [Change 1; Repainted; Change 1]) ≤ 1.
Proof.
  destruct (result_windowing xml_escape (λ _, 10) Results_init
    [(u "a/b.html", [2; 0]); (u "c&d", [-1]); (u "e", [0])] 10 30
    eq_refl (λ _, eq_refl) eq_refl)
    as (st & Hst & Hlen & Hmax & Hlaid & Hpainted & Hreach & Hrange).
  exists st. split_and!;
    [exact Hst|exact Hlen|exact Hmax|exact Hlaid|exact Hpainted| |].
  - apply Hreach. rewrite Hpainted. vm_compute. split; discriminate.
  - destruct (Hrange eq_refl [Change 1; Repainted; Change 1])
      as (_ & _ & _ & Hle).
    by rewrite Hpainted in Hle.
Defined.

(** ** Dialogs: geometry in the preferences *)

Lemma geometry_key_ne_splitter_key (n : unicode) :
  geometry_key n ≠ splitter_key n.
Proof.
  unfold geometry_key, splitter_key. intros H.
  apply app_inv_head in H. discriminate H.
Qed.

Lemma save_state_trace (self : Dialog) (w : gui) :
  trace (save_state self w) =
    trace w ++
    TprefsSet (geometry_key (name self)) (geometry self) ::
    match splitter self with
    | Some state => [TprefsSet (splitter_key (name self)) state]
    | None => []
    end.
Proof.
  unfold save_state. destruct (splitter self); simpl; [|done].
  by rewrite <- (assoc_L (++)).
Qed.

Lemma save_state_tprefs (self : Dialog) (w : gui) (k : unicode) :
  tprefs (save_state self w) !! k =
    if decide (k = splitter_key (name self) ∧ is_Some (splitter self))
    then splitter self
    else if decide (k = geometry_key (name self)) then Some (geometry self)
    else tprefs w !! k.
Proof.
  pose proof (geometry_key_ne_splitter_key (name self)) as Hne.
  unfold save_state. destruct (splitter self) as [state|]; cbn [tprefs_set tprefs].
  - destruct (decide (k = splitter_key (name self))) as [->|Hk].
    + rewrite lookup_insert_eq. by rewrite decide_True by (split; [done|by eexists]).
    + rewrite lookup_insert_ne by done.
      rewrite (decide_False (P := _ ∧ _)) by (by intros [? _]).
      destruct (decide (k = geometry_key (name self))) as [->|Hk'].
      * by rewrite lookup_insert_eq.
      * by rewrite lookup_insert_ne.
  - rewrite (decide_False (P := _ ∧ _)) by (by intros [_ [? ?]]).
    destruct (decide (k = geometry_key (name self))) as [->|Hk'].
    + by rewrite lookup_insert_eq.
    + by rewrite lookup_insert_ne.
Qed.

(** C8. [Dialog.accept] and [Dialog.reject] write the window geometry under
    the dialog's name with -geometry appended and, for a dialog with a
    splitter, the splitter state under the name with -splitter-state
    appended, and only then hand over to [QDialog].  [Dialog.__init__]
    reads the same keys: a stored value is restored, and for a missing key
    nothing is restored and the dialog keeps the geometry (or splitter
    state) it was built with.  What one dialog saved, the next one of that
    name gets back. *)
Theorem dialog_geometry_persistence
    (self : Dialog) (w : gui) (n : unicode) (size_hint : bytes)
    (fresh_splitter : option bytes) :
  let saved :=
    TprefsSet (geometry_key (name self)) (geometry self) ::
    match splitter self with
    | Some state => [TprefsSet (splitter_key (name self)) state]
    | None => []
    end in
  let restored :=
    match tprefs w !! geometry_key n with
    | Some geom => [RestoreGeometry geom]
    | None => []
    end ++
    match fresh_splitter, tprefs w !! splitter_key n with
    | Some _, Some state => [RestoreState state]
    | _, _ => []
    end in
  (trace (Dialog_accept self w).2 = trace w ++ saved ++ [QDialogAccept] ∧
   (Dialog_accept self w).1 = close self Accepted) ∧
  (trace (Dialog_reject self w).2 = trace w ++ saved ++ [QDialogReject] ∧
   (Dialog_reject self w).1 = close self Rejected) ∧
  tprefs (Dialog_reject self w).2 = tprefs (Dialog_accept self w).2 ∧
  tprefs (Dialog_accept self w).2 !! geometry_key (name self) =
    Some (geometry self) ∧
  (is_Some (splitter self) →
   tprefs (Dialog_accept self w).2 !! splitter_key (name self) =
     splitter self) ∧
  Dialog_init n size_hint fresh_splitter w =
    ({| name := n;
        geometry := default size_hint (tprefs w !! geometry_key n);
        splitter := (λ fresh, default fresh (tprefs w !! splitter_key n))
                      <$> fresh_splitter;
        code := Pending |},
     emit w restored) ∧
  (Dialog_init (name self) size_hint (splitter self)
     (Dialog_accept self w).2).1 = close self Pending.
Proof.
  intros saved restored. subst saved restored.
  assert (Hinit : ∀ (n' : unicode) (fresh : option bytes) (w' : gui),
    Dialog_init n' size_hint fresh w' =
    ({| name := n';
        geometry := default size_hint (tprefs w' !! geometry_key n');
        splitter := (λ f, default f (tprefs w' !! splitter_key n')) <$> fresh;
        code := Pending |},
     emit w'
       (match tprefs w' !! geometry_key n' with
        | Some geom => [RestoreGeometry geom]
        | None => []
        end ++
        match fresh, tprefs w' !! splitter_key n' with
        | Some _, Some state => [RestoreState state]
        | _, _ => []
        end))).
  { intros n' fresh [prefs tr]. unfold Dialog_init, emit. simpl.
    destruct (prefs !! geometry_key n') as [geom|]; simpl;
      destruct fresh as [f|]; simpl;
      try destruct (prefs !! splitter_key n') as [state|]; simpl;
      rewrite ?app_nil_r, <- ?(assoc_L (++)); reflexivity. }
  unfold Dialog_accept, Dialog_reject. cbn [fst snd emit trace tprefs].
  rewrite !save_state_trace, <- !(assoc_L (++)).
  pose proof (geometry_key_ne_splitter_key (name self)) as Hne.
  assert (Hgeom : tprefs (save_state self w) !! geometry_key (name self) =
                  Some (geometry self)).
  { rewrite save_state_tprefs.
    rewrite (decide_False (P := _ ∧ _)) by (by intros [? _]).
    by rewrite decide_True. }
  assert (Hsplit : is_Some (splitter self) →
    tprefs (save_state self w) !! splitter_key (name self) = splitter self).
  { intros Hsome. rewrite save_state_tprefs. by rewrite decide_True. }
  split_and!; try done.
  rewrite Hinit. cbn [fst tprefs emit]. rewrite Hgeom.
  destruct self as [nm geom [state|] c]; unfold close; simpl in *.
  - by rewrite Hsplit by (by eexists).
  - done.
Qed.

(** ** Dialogs: validation *)

(** C7, on the code. A failed validation leaves either dialog as it was:
    nothing reaches [Dialog.accept] and the preferences are untouched.  For
    an empty source ImportForeign.accept builds the message box and runs
    it.  For an XPath expression that fails its check MultiSplit.accept
    builds the message box and returns it without running it: no modal
    message appears. *)
Theorem validation_failure_message
    (ms : MultiSplit) (imp : ImportForeign) (w : gui) :
  check (_xpath ms) = false →
  src imp = [] →
  (ImportForeign_accept imp w).1 = imp ∧
  tprefs (ImportForeign_accept imp w).2 = tprefs w ∧
  (∃ title msg,
     trace (ImportForeign_accept imp w).2 =
       trace w ++ [MessageBoxCreated title msg; MessageBoxExec title msg]) ∧
  (MultiSplit_accept ms w).1 = ms ∧
  tprefs (MultiSplit_accept ms w).2 = tprefs w ∧
  (∃ title msg,
     trace (MultiSplit_accept ms w).2 =
       trace w ++ [MessageBoxCreated title msg]).
Proof.
  intros Hcheck Hsrc.
  unfold ImportForeign_accept, MultiSplit_accept.
  rewrite Hcheck, Hsrc. cbn [negb fst snd].
  unfold error_dialog, error_dialog_default_show, emit. cbn [trace tprefs].
  split_and!; try done; by do 2 eexists.
Qed.

Lemma validation_failure_message_witness :
  let d := {| name := u "multisplit-xpath"; geometry := [];
              splitter := None; code := Pending |} in
  let ms := {| ms_dialog := d;
               _xpath := {| xpath := u "//h:h1["; check := false |} |} in
  let w := {| tprefs := ∅; trace := [] |} in
  (MultiSplit_accept ms w).1 = ms ∧
  ∃ title msg,
    trace (MultiSplit_accept ms w).2 = [MessageBoxCreated title msg].
Proof.
  intros d ms w.
  pose (imp := {| if_dialog := d; src := []; dest := [] |}).
  destruct (validation_failure_message ms imp w eq_refl eq_refl)
    as (_ & _ & _ & Hms & _ & Htrace).
  split; [exact Hms|exact Htrace].
Defined.

(** ** ImportForeign: source and destination *)

Lemma lstrip_head (s : unicode) (c : N) :
  head (lstrip s) = Some c → isspace c = false.
Proof.
  induction s as [|x s IH]; simpl; [done|].
  destruct (isspace x) eqn:Hx; [done|]. simpl. by intros [= <-].
Qed.

Lemma lstrip_id (s : unicode) :
  (∀ c, head s = Some c → isspace c = false) → lstrip s = s.
Proof.
  destruct s as [|x s]; simpl; [done|]. intros H. by rewrite (H x).
Qed.

Lemma lstrip_last (s : unicode) (c : N) :
  last (lstrip s) = Some c → last s = Some c.
Proof.
  induction s as [|x s IH]; simpl; [done|].
  destruct (isspace x); [|done].
  intros H. specialize (IH H). destruct s; [done|]. done.
Qed.

Lemma rstrip_last (s : unicode) (c : N) :
  last (rstrip s) = Some c → isspace c = false.
Proof. unfold rstrip. rewrite last_reverse. apply lstrip_head. Qed.

Lemma rstrip_id (s : unicode) :
  (∀ c, last s = Some c → isspace c = false) → rstrip s = s.
Proof.
  intros H. unfold rstrip. rewrite lstrip_id; [apply reverse_involutive|].
  intros c. rewrite head_reverse. apply H.
Qed.

Lemma rstrip_head (s : unicode) (c : N) :
  head (rstrip s) = Some c → head s = Some c.
Proof.
  unfold rstrip. rewrite head_reverse. intros H.
  apply lstrip_last in H. by rewrite last_reverse in H.
Qed.

Lemma strip_stripped (s : unicode) : stripped (strip s).
Proof.
  unfold strip. split; intros c H.
  - apply rstrip_head in H. by apply lstrip_head in H.
  - by apply rstrip_last in H.
Qed.

Lemma strip_of_stripped (s : unicode) : stripped s → strip s = s.
Proof.
  intros [Hh Hl]. unfold strip. rewrite lstrip_id by done. by apply rstrip_id.
Qed.

Lemma rpartition_absent (sep : N) (s : unicode) :
  sep ∉ s → rpartition sep s = None.
Proof.
  induction s as [|c s IH]; simpl; [done|].
  rewrite not_elem_of_cons. intros [Hc Hs]. rewrite IH by done.
  destruct (N.eqb_spec c sep); [congruence|done].
Qed.

Lemma rpartition_last (sep : N) (h t : unicode) :
  sep ∉ t → rpartition sep (h ++ [sep] ++ t) = Some (h, t).
Proof.
  intros Ht. induction h as [|c h IH]; simpl.
  - rewrite rpartition_absent by done. by rewrite N.eqb_refl.
  - simpl in IH. by rewrite IH.
Qed.

Lemma endswith_lower_epub (path : unicode) :
  endswith (lower (path ++ u ".epub")) (u ".epub") = true.
Proof.
  unfold endswith, lower. apply bool_decide_eq_true_2.
  rewrite fmap_app. rewrite drop_app_length'; [reflexivity|].
  rewrite length_app, !length_fmap. simpl. lia.
Qed.

(** C10, as stated, fails for the save chooser: a chosen path that ends in
    the extension in capitals is kept as it is, and does not end with
    .epub. *)
Lemma choose_destination_counterexample :
  let self := {| if_dialog := {| name := u "import-foreign"; geometry := [];
                                 splitter := None; code := Pending |};
                 src := u "a.docx"; dest := [] |} in
  dest (choose_destination self (Some (u "A.EPUB"))) = u "A.EPUB" ∧
  (ImportForeign_data (choose_destination self (Some (u "A.EPUB")))).2 =
    u "A.EPUB" ∧
  endswith (u "A.EPUB") (u ".epub") = false.
Proof. split_and!; reflexivity. Qed.

(** C10, amended. With a blank destination and a source that holds a dot,
    [ImportForeign.data] returns the stripped source and, as destination,
    the stripped source with what follows its last dot replaced by epub;
    both are free of white space at either end.  A destination that is not
    blank is returned stripped.  Only an empty source text blocks
    [accept].  A path taken from the save chooser ends with .epub once put
    in lower case: it is kept when that already holds, and gets .epub
    appended otherwise. *)
Theorem import_foreign_destination
    (self : ImportForeign) (w : gui) (path h t : unicode) :
  (strip (dest self) = [] →
   strip (src self) = h ++ [46%N] ++ t →
   46%N ∉ t →
     ImportForeign_data self = (strip (src self), h ++ u ".epub") ∧
     stripped (strip (src self)) ∧ stripped (h ++ u ".epub")) ∧
  (strip (dest self) ≠ [] →
     ImportForeign_data self = (strip (src self), strip (dest self)) ∧
     stripped (strip (src self)) ∧ stripped (strip (dest self))) ∧
  (src self ≠ [] →
     code (if_dialog (ImportForeign_accept self w).1) = Accepted) ∧
  (src self = [] → (ImportForeign_accept self w).1 = self) ∧
  (path ≠ [] →
     let chosen := dest (choose_destination self (Some path)) in
     endswith (lower chosen) (u ".epub") = true ∧
     chosen = (if endswith (lower path) (u ".epub") then path
               else path ++ u ".epub")).
Proof.
  split_and!.
  - intros Hdest Hsrc Ht. unfold ImportForeign_data.
    rewrite Hdest, Hsrc. unfold rpartition_head.
    rewrite rpartition_last by done. split_and!; [done| |].
    + rewrite <- Hsrc. apply strip_stripped.
    + pose proof (strip_stripped (src self)) as [Hh _]. rewrite Hsrc in Hh.
      split; intros c.
      * destruct h as [|x h]; simpl in *; [|apply Hh].
        by intros [= <-].
      * change (u ".epub") with (u ".epu" ++ [98%N]).
        rewrite (assoc_L (++)), last_snoc. by intros [= <-].
  - intros Hdest. unfold ImportForeign_data.
    destruct (strip (dest self)) as [|c d] eqn:Hd; [done|].
    rewrite <- Hd. split_and!; [done|apply strip_stripped..].
  - intros Hsrc. unfold ImportForeign_accept.
    destruct (src self); [done|]. reflexivity.
  - intros Hsrc. unfold ImportForeign_accept. by rewrite Hsrc.
  - intros Hpath. destruct path as [|c path]; [done|].
    cbn [choose_destination dest].
    destruct (endswith (lower (c :: path)) (u ".epub")) eqn:He;
      cbn [negb dest].
    + done.
    + split; [|done]. apply endswith_lower_epub.
Qed.

Lemma import_foreign_destination_witness :
  let self := {| if_dialog := {| name := u "import-foreign"; geometry := [];
                                 splitter := None; code := Pending |};
                 src := u " my.book.docx "; dest := u "  " |} in
  ImportForeign_data self = (u "my.book.docx", u "my.book.epub") ∧
  endswith (lower (dest (choose_destination self (Some (u "A.EPUB")))))
    (u ".epub") = true ∧
  endswith (lower (dest (choose_destination self (Some (u "out")))))
    (u ".epub") = true.
Proof.
  intros self.
  assert (Hdot : 46%N ∉ u "docx").
  { rewrite list_elem_of_In. vm_compute. intuition discriminate. }
  split_and!.
  - exact (proj1 (proj1 (import_foreign_destination self
      {| tprefs := ∅; trace := [] |} (u "x") (u "my.book") (u "docx"))
      eq_refl eq_refl Hdot)).
  - destruct (import_foreign_destination self
      {| tprefs := ∅; trace := [] |} (u "A.EPUB") [] []) as (_ & _ & _ & _ & H).
    apply H. discriminate.
  - destruct (import_foreign_destination self
      {| tprefs := ∅; trace := [] |} (u "out") [] []) as (_ & _ & _ & _ & H).
    apply H. discriminate.
Defined.

(** ** Insert Semantics: what changed *)

Lemma changed_type_map_lookup (self : InsertSemantics) (k : unicode)
    (v : location) :
  changed_type_map self !! k = Some v ↔
  final_type_map self !! k = Some v ∧ Some v ≠ original_type_map self !! k.
Proof. unfold changed_type_map. by rewrite map_lookup_filter_Some. Qed.

Lemma target_text_changed_original (self : InsertSemantics)
    (text : unicode) :
  original_type_map (target_text_changed self text) = original_type_map self.
Proof. unfold target_text_changed. by destruct (partition 35 text). Qed.

Lemma cascade_original (cascade : list unicode) (self : InsertSemantics) :
  original_type_map (foldl target_text_changed self cascade) =
    original_type_map self.
Proof.
  revert self. induction cascade as [|text cascade IH]; intros self;
    cbn [foldl]; [done|].
  by rewrite IH, target_text_changed_original.
Qed.

Lemma apply_edit_original (self : InsertSemantics) (e : edit) :
  original_type_map (apply_edit self e) = original_type_map self.
Proof.
  destruct e as [item_type cascade|text]; cbn [apply_edit].
  - by rewrite cascade_original.
  - apply target_text_changed_original.
Qed.

Lemma foldl_apply_edit_original (edits : list edit) (self : InsertSemantics) :
  original_type_map (foldl apply_edit self edits) = original_type_map self.
Proof.
  revert self. induction edits as [|e edits IH]; intros self; simpl; [done|].
  by rewrite IH, apply_edit_original.
Qed.

Lemma target_text_changed_offered (self : InsertSemantics) (text : unicode) :
  entries_offered self → entries_offered (target_text_changed self text).
Proof.
  intros [Hcur Hfin].
  unfold target_text_changed. destruct (partition 35 text) as [nm fr].
  split; [done|]. simpl. intros k v.
  destruct (decide (k = semantic_type self)) as [->|Hk].
  - rewrite lookup_insert_eq. intros _. by right.
  - rewrite lookup_insert_ne by done. apply Hfin.
Qed.

Lemma cascade_offered (cascade : list unicode) (self : InsertSemantics) :
  entries_offered self →
  entries_offered (foldl target_text_changed self cascade).
Proof.
  revert self. induction cascade as [|text cascade IH]; intros self Hself;
    cbn [foldl]; [done|].
  apply IH. by apply target_text_changed_offered.
Qed.

Lemma apply_edit_offered (self : InsertSemantics) (e : edit) :
  offered e → entries_offered self → entries_offered (apply_edit self e).
Proof.
  intros He Hself. destruct e as [item_type cascade|text]; cbn [apply_edit].
  - apply cascade_offered. destruct Hself as [_ Hfin]. by split.
  - by apply target_text_changed_offered.
Qed.

Lemma foldl_apply_edit_offered (edits : list edit) (self : InsertSemantics) :
  Forall offered edits → entries_offered self →
  entries_offered (foldl apply_edit self edits).
Proof.
  revert self. induction edits as [|e edits IH]; intros self Hall Hself;
    simpl; [done|].
  apply Forall_cons in Hall as [He Hall].
  apply IH; [done|]. by apply apply_edit_offered.
Qed.

Lemma set_guide_items_from translate lang items c :
  c ∈ (set_guide_items translate lang items).1 →
  (gi_type c, (gi_name c, gi_frag c)) ∈ items.
Proof.
  induction items as [|[k [nm fr]] rest IH]; cbn [set_guide_items].
  - by intros ?%elem_of_nil.
  - destruct (known_type_map !! k) as [title|]; [|by intros ?%elem_of_nil].
    destruct (set_guide_items translate lang rest) as [calls ok] eqn:Hrest.
    cbn [fst] in *. rewrite elem_of_cons.
    intros [->|Hc]; [by left|]. right. by apply IH.
Qed.

Lemma set_guide_items_all translate lang items :
  Forall (λ item, is_Some (known_type_map !! item.1)) items →
  (set_guide_items translate lang items).2 = true ∧
  gi_type <$> (set_guide_items translate lang items).1 = items.*1.
Proof.
  induction 1 as [|[k [nm fr]] rest [title Hk] _ IH];
    cbn [set_guide_items]; [done|].
  simpl in Hk. rewrite Hk.
  destruct (set_guide_items translate lang rest) as [calls ok].
  cbn [fst snd] in *. destruct IH as [-> Hcalls].
  split; [done|]. rewrite !fmap_cons. by rewrite Hcalls.
Qed.

(** C5. Whatever happens after the dialog has opened, the snapshot taken
    at construction stays as it is; [changed_type_map] holds exactly the
    entries of [final_type_map] whose value differs from what the snapshot
    has under the same key, a key missing from the snapshot counting as
    different; and every guide entry [apply_changes] writes is an entry of
    [changed_type_map].  With the item types taken from the combo box,
    [apply_changes] writes all of them, each once. *)
Theorem semantics_diff
    (href_to_name : unicode → unicode)
    (translate : unicode → unicode → unicode)
    (guide : list (unicode * unicode)) (first_type : unicode)
    (edits : list edit) (lang : option unicode) :
  let opened := InsertSemantics_init href_to_name guide first_type in
  let self := foldl apply_edit opened edits in
  original_type_map self = original_type_map opened ∧
  (∀ k v, changed_type_map self !! k = Some v ↔
     final_type_map self !! k = Some v ∧
     Some v ≠ original_type_map opened !! k) ∧
  (∀ c, c ∈ (apply_changes translate self lang).1 →
     changed_type_map self !! gi_type c = Some (gi_name c, gi_frag c)) ∧
  (is_Some (known_type_map !! first_type) →
   Forall offered edits →
     (apply_changes translate self lang).2 = true ∧
     gi_type <$> (apply_changes translate self lang).1 =
       (map_to_list (changed_type_map self)).*1).
Proof.
  intros opened self.
  assert (Horig : original_type_map self = original_type_map opened)
    by apply foldl_apply_edit_original.
  split_and!.
  - done.
  - intros k v. rewrite changed_type_map_lookup. by rewrite Horig.
  - intros c Hc. apply set_guide_items_from in Hc.
    by apply elem_of_map_to_list in Hc.
  - intros Hfirst Hedits. apply set_guide_items_all.
    assert (Hinv : entries_offered self).
    { apply foldl_apply_edit_offered; [done|]. split; [done|].
      intros k v Hkv. by left. }
    destruct Hinv as [_ Hfin].
    apply Forall_forall. intros [k v] Hkv.
    apply elem_of_map_to_list, changed_type_map_lookup in Hkv as [Hf Hne].
    destruct (Hfin k v Hf) as [Ho|Hknown]; [|done].
    by rewrite Ho in Hne.
Qed.

Lemma semantics_diff_witness :
  let guide := [(u "toc", u "nav.html#top"); (u "cover", u "cover.html")] in
  let edits := [TargetText (u "title.html");
                SelectType (u "toc") [u "nav.html"; u "nav.html#top"];
                SelectType (u "text") [];
                TargetText (u "ch1.html#start")] in
  let self := foldl apply_edit
                (InsertSemantics_init (λ href, (partition 35 href).1) guide
                   (u "title-page")) edits in
  (apply_changes (λ _ title, title) self None).2 = true ∧
  gi_type <$> (apply_changes (λ _ title, title) self None).1 =
    (map_to_list (changed_type_map self)).*1.
Proof.
  intros guide edits self.
  assert (Hfirst : is_Some (known_type_map !! u "title-page"))
    by (by eexists).
  assert (Hedits : Forall offered edits).
  { repeat constructor; by eexists. }
  exact (proj2 (proj2 (proj2 (semantics_diff (λ href, (partition 35 href).1)
    (λ _ title, title) guide (u "title-page") edits None))) Hfirst Hedits).
Defined.

Example semantics_diff_example :
  let guide := [(u "toc", u "nav.html#top"); (u "cover", u "cover.html")] in
  let edits := [TargetText (u "title.html");
                SelectType (u "toc") [u "nav.html"; u "nav.html#top"];
                SelectType (u "text") [];
                TargetText (u "ch1.html#start")] in
  let self := foldl apply_edit
                (InsertSemantics_init (λ href, (partition 35 href).1) guide
                   (u "title-page")) edits in
  changed_type_map self =
    {[ u "title-page" := (u "title.html", None);
       u "text" := (u "ch1.html", Some (u "start")) ]}.
Proof. vm_compute. reflexivity. Qed.

(** ** Highlighted text: further properties *)

(** X1. The result depends on the set of positions only: two collections
    that hold the same positions other than -1, in whatever order and
    however often, give the same text. *)
Theorem make_highlighted_text_set
    (prepare_string_for_xml : unicode → unicode)
    (emph S : unicode) (P Q : list Z) :
  (∀ p, p ≠ -1 → p ∈ P ↔ p ∈ Q) →
  make_highlighted_text prepare_string_for_xml emph S P =
  make_highlighted_text prepare_string_for_xml emph S Q.
Proof.
  intros H. unfold make_highlighted_text.
  by rewrite (sorted_positions_ext P Q H).
Qed.

Lemma make_highlighted_text_set_witness :
  make_highlighted_text xml_escape (u "e") (u "abc") [2; 0; 2; -1] =
  make_highlighted_text xml_escape (u "e") (u "abc") [0; 2].
Proof.
  apply make_highlighted_text_set. intros p Hp.
  rewrite !list_elem_of_In. simpl. lia.
Defined.

Lemma sorted_positions_head_max (P : list Z) (p : Z) :
  p ∈ P → p ≠ -1 →
  ∃ d ds, sorted_positions P = d :: ds ∧ p ≤ d.
Proof.
  intros Hp Hne.
  pose proof (sorted_positions_descending P) as Hsorted.
  assert (Hin : p ∈ sorted_positions P) by (by apply sorted_positions_elem).
  destruct (sorted_positions P) as [|d ds]; [by apply elem_of_nil in Hin|].
  exists d, ds. split; [done|].
  apply StronglySorted_inv in Hsorted as [_ Hd].
  apply elem_of_cons in Hin as [->|Hin]; [lia|].
  rewrite Forall_forall in Hd. specialize (Hd p Hin). lia.
Qed.

(** X2. A position at or beyond the end of the escaped text makes
    [make_highlighted_text] raise IndexError, whatever the other positions
    are: the largest position is looked up first, in the text as escaped. *)
Theorem make_highlighted_text_out_of_range
    (prepare_string_for_xml : unicode → unicode)
    (emph S : unicode) (P : list Z) (p : Z) :
  p ∈ P →
  Py.len (prepare_string_for_xml S) ≤ p →
  make_highlighted_text prepare_string_for_xml emph S P = None.
Proof.
  intros Hp Hlen. unfold Py.len in Hlen.
  destruct (sorted_positions_head_max P p Hp ltac:(lia)) as (d & ds & Hs & Hd).
  unfold make_highlighted_text. rewrite Hs. cbn [highlight_loop].
  replace d with (Z.of_nat (Z.to_nat d)) by lia.
  rewrite get_char_outside by lia. reflexivity.
Qed.

Lemma make_highlighted_text_out_of_range_witness :
  make_highlighted_text xml_escape (u "e") (u "abc") [0; 3] = None.
Proof.
  apply (make_highlighted_text_out_of_range xml_escape (u "e") (u "abc")
           [0; 3] 3).
  - apply list_elem_of_In. simpl. auto.
  - unfold Py.len. simpl. lia.
Defined.

Lemma span_length (emph ch : unicode) :
  Py.len (span emph ch) = span_overhead emph + Py.len ch.
Proof.
  unfold span, span_overhead, Py.len. rewrite !length_app.
  change (length (u "<span style=")) with 12%nat.
  change (length (u ">")) with 1%nat.
  change (length (u "</span>")) with 7%nat.
  simpl. lia.
Qed.

Lemma len_app {A} (s t : list A) : Py.len (s ++ t) = Py.len s + Py.len t.
Proof. unfold Py.len. rewrite length_app. lia. Qed.

Lemma slice_length {A} (s : list A) (lo hi : Z) :
  0 ≤ lo ≤ hi → hi ≤ Py.len s → Py.len (Py.slice s lo hi) = hi - lo.
Proof.
  unfold Py.len. intros Hlo Hhi.
  replace lo with (Z.of_nat (Z.to_nat lo)) at 1 by lia.
  replace hi with (Z.of_nat (Z.to_nat hi)) at 1 by lia.
  rewrite slice_of_nat, length_take, length_drop. lia.
Qed.

Lemma emphasized_length (emph esc : unicode) (ds : list Z) :
  ∀ b, 0 ≤ b ≤ Py.len esc → fits esc b ds →
    Py.len (emphasized emph esc b ds) =
      b + Z.of_nat (length ds) * span_overhead emph.
Proof.
  induction ds as [|d ds IH]; intros b Hb Hfits; cbn [emphasized].
  - rewrite slice_length by lia. simpl. lia.
  - destruct Hfits as (Hd & Hend & Hrest).
    pose proof (char_end_bounds esc d Hd) as Hce.
    rewrite !len_app, span_length, IH by (done || lia).
    rewrite slice_length by lia.
    unfold char_end. rewrite length_cons. lia.
Qed.

(** X3. For valid character positions the result is the escaped text
    grown by one span per distinct position other than -1: each span adds
    22 code units and the style, and nothing of the text is lost or
    doubled. *)
Theorem make_highlighted_text_length
    (prepare_string_for_xml : unicode → unicode)
    (emph S : unicode) (P : list Z) :
  valid_positionsb (prepare_string_for_xml S) P = true →
  ∃ out,
    make_highlighted_text prepare_string_for_xml emph S P = Some out ∧
    Py.len out =
      Py.len (prepare_string_for_xml S) +
      Z.of_nat (size ((list_to_set P : gset Z) ∖ {[ -1 ]})) *
        span_overhead emph.
Proof.
  intros Hvalid. eexists. split; [by apply make_highlighted_text_valid|].
  pose proof (valid_positionsb_spec _ _ Hvalid) as Hv.
  rewrite emphasized_length.
  - do 2 f_equal. unfold sorted_positions.
    by rewrite merge_sort_Permutation.
  - unfold Py.len. lia.
  - apply fits_descending; [apply sorted_positions_descending| |].
    + intros d Hd. apply sorted_positions_elem in Hd as [Hd Hne].
      destruct (Hv d Hd Hne) as [H0 H1]. split; [done|].
      intros q Hq. apply sorted_positions_elem in Hq as [Hq Hqne]. eauto.
    + intros d Hd. apply sorted_positions_elem in Hd as [Hd Hne].
      destruct (Hv d Hd Hne) as [H0 _]. by apply char_end_bounds.
Qed.

Lemma make_highlighted_text_length_witness :
  ∃ out,
    make_highlighted_text xml_escape (u "e") (u "a<b") [5; -1; 0; 5] =
      Some out ∧
    Py.len out = 6 + 2 * 23.
Proof.
  exact (make_highlighted_text_length xml_escape (u "e") (u "a<b")
           [5; -1; 0; 5] eq_refl).
Defined.

(** ** The result list: mouse and selection *)

Lemma item_from_y_loop_range delta y maxy rows :
  ∀ i pos,
    let r := item_from_y_loop delta y maxy rows i pos in
    r = -1 ∨ i ≤ r < i + Py.len rows.
Proof.
  unfold Py.len.
  induction rows as [|row rows IH]; intros i pos; cbn [item_from_y_loop].
  - by left.
  - cbn zeta. destruct ((pos <=? y) && (y <? pos + delta)).
    + right. rewrite length_cons. lia.
    + destruct (pos + delta >? Z.min y maxy); [by left|].
      destruct (IH (i + 1) (pos + delta)) as [H|H]; [by left|].
      right. rewrite length_cons. lia.
Qed.

Lemma item_from_y_loop_spec delta y maxy rows :
  0 < delta →
  ∀ j, 0 ≤ j → j * delta ≤ y →
    item_from_y_loop delta y maxy rows j (j * delta) =
      if (y / delta - j <? Py.len rows) &&
         ((y / delta =? j) || (y / delta * delta <=? maxy))
      then y / delta else -1.
Proof.
  intros Hdelta. unfold Py.len.
  pose proof (Z.div_mod y delta ltac:(lia)) as Hdm.
  pose proof (Z.mod_pos_bound y delta Hdelta) as Hmod.
  set (i := y / delta) in *.
  induction rows as [|row rows IH]; intros j Hj Hjy; cbn [item_from_y_loop].
  - assert (j ≤ i) by nia.
    destruct (Z.ltb_spec (i - j) (Z.of_nat (length (@nil
      (QStaticText * QStaticText * unicode))))); simpl in *; [lia|done].
  - cbn zeta. assert (Hji : j ≤ i) by nia.
    rewrite length_cons.
    destruct (Z.leb_spec (j * delta) y); [|lia].
    destruct (Z.ltb_spec y (j * delta + delta)) as [Hin|Hout]; cbn [andb].
    + assert (Heq : i = j) by nia. rewrite Heq, Z.eqb_refl.
      destruct (Z.ltb_spec (j - j) (Z.of_nat (S (length rows)))); [done|lia].
    + assert (Hlt : j < i) by nia.
      destruct (Z.eqb_spec i j); [lia|]. cbn [orb].
      destruct (Z.gtb_spec (j * delta + delta) (Z.min y maxy)) as [Hbr|Hgo].
      * assert (maxy < i * delta) by nia.
        destruct (Z.leb_spec (i * delta) maxy); [lia|].
        by rewrite andb_false_r.
      * replace (j * delta + delta) with ((j + 1) * delta) by lia.
        rewrite IH by nia.
        destruct (Z.eqb_spec i (j + 1)) as [Hi|Hi].
        -- assert (i * delta <= maxy) by nia.
           destruct (Z.leb_spec (i * delta) maxy); [|lia]. cbn [orb].
           destruct (Z.ltb_spec (i - (j + 1)) (Z.of_nat (length rows)));
           destruct (Z.ltb_spec (i - j) (Z.of_nat (S (length rows))));
             try done; lia.
        -- cbn [orb].
           destruct (Z.ltb_spec (i - (j + 1)) (Z.of_nat (length rows)));
           destruct (Z.ltb_spec (i - j) (Z.of_nat (S (length rows))));
             try done; lia.
Qed.

Lemma item_from_y_spec (self : Results) (maxy y : Z) :
  (results self = [] → item_from_y self maxy y = None) ∧
  ∀ prefix full text rest,
    results self = (prefix, full, text) :: rest →
    0 < height prefix + Results_const.MARGIN →
    let delta := height prefix + Results_const.MARGIN in
    let i := y / delta in
    item_from_y self maxy y =
      Some (if (0 <=? y) && (i <? Py.len (results self)) &&
               ((i =? 0) || (i * delta <=? maxy))
            then i else -1).
Proof.
  split.
  - intros Hres. unfold item_from_y. by rewrite Hres.
  - intros prefix full text rest Hres Hdelta delta i.
    unfold item_from_y. rewrite Hres. fold delta. f_equal.
    destruct (Z.leb_spec 0 y) as [Hy|Hy].
    + pose proof (item_from_y_loop_spec delta y maxy
        ((prefix, full, text) :: rest) Hdelta 0 ltac:(lia) ltac:(lia)) as H.
      rewrite Z.mul_0_l in H. rewrite H. fold i. by rewrite Z.sub_0_r.
    + cbn [item_from_y_loop andb]. cbn zeta.
      destruct (Z.leb_spec 0 y); [lia|]. cbn [andb].
      destruct (Z.gtb_spec (0 + delta) (Z.min y maxy)); [done|lia].
Qed.


(** X4. [item_from_y] returns [None] when there are no results.  With
    results, rows being [delta] high (the height of the first prefix plus
    the margin), it returns the row [y / delta] under the pointer when that
    row exists and is the first row or starts at or above the widget's
    height, and -1 in every other case, a negative [y] included. *)
Theorem item_from_y_row (self : Results) (maxy y : Z) :
  (results self = [] → item_from_y self maxy y = None) ∧
  ∀ prefix full text rest,
    results self = (prefix, full, text) :: rest →
    0 < height prefix + Results_const.MARGIN →
    let delta := height prefix + Results_const.MARGIN in
    let i := y / delta in
    item_from_y self maxy y =
      Some (if (0 <=? y) && (i <? Py.len (results self)) &&
               ((i =? 0) || (i * delta <=? maxy))
            then i else -1).
Proof. apply item_from_y_spec. Qed.

Lemma item_from_y_row_witness :
  let row := ({| markup := u "<b>a</b>"; height := 10 |},
              {| markup := u "a"; height := 10 |}, u "a") in
  let self := {| results := [row; row; row]; current_result := 0;
                 max_result := 2; mouse_hover_result := -1; updates := 0 |} in
  item_from_y self 100 30 = Some 2 ∧
  item_from_y self 100 42 = Some (-1) ∧
  item_from_y self 20 30 = Some (-1).
Proof.
  intros row self.
  assert (Hd : 0 < height row.1.1 + Results_const.MARGIN) by reflexivity.
  split_and!.
  - exact (proj2 (item_from_y_row self 100 30) _ _ _ _ eq_refl Hd).
  - exact (proj2 (item_from_y_row self 100 42) _ _ _ _ eq_refl Hd).
  - exact (proj2 (item_from_y_row self 20 30) _ _ _ _ eq_refl Hd).
Defined.

Lemma mousePressEvent_cases (self : Results) (maxy button y : Z) :
  (button ≠ 1 → mousePressEvent self maxy button y = PassedOn) ∧
  (results self = [] → mousePressEvent self maxy 1 y = Selected None) ∧
  (results self ≠ [] →
     mousePressEvent self maxy button y = PassedOn ∨
     ∃ i, mousePressEvent self maxy button y = Selected (Some i) ∧
          item_from_y self maxy y = Some i ∧
          0 ≤ i < Py.len (results self)).
Proof.
  unfold mousePressEvent. split_and!.
  - intros Hb. by destruct (Z.eqb_spec button 1).
  - intros Hres. unfold item_from_y. rewrite Hres. reflexivity.
  - intros Hres. destruct (button =? 1); [|by left].
    unfold item_from_y.
    destruct (results self) as [|[[prefix full] text] rest] eqn:Hrows;
      [done|].
    pose proof (item_from_y_loop_range
      (height prefix + Results_const.MARGIN) y maxy
      ((prefix, full, text) :: rest) 0 0) as Hrange.
    cbn zeta in Hrange.
    set (r := item_from_y_loop _ _ _ _ _ _) in *. clearbody r.
    destruct Hrange as [Hr|Hr].
    + left. rewrite Hr. reflexivity.
    + right. eexists. split_and!; [|done|lia|lia].
      rewrite bool_decide_eq_true_2; [done|]. intros [= Heq]. lia.
Qed.


(** X5. [mousePressEvent] hands on every press of a button other than the
    left one.  A left press with results present either is handed on or
    selects a row that exists.  A left press with no results is not handed
    on: [item_from_y] returns [None], which differs from -1, so [None] is
    stored as the selection and [item_selected] is emitted. *)
Theorem mousePressEvent_outcome (self : Results) (maxy button y : Z) :
  (button ≠ 1 → mousePressEvent self maxy button y = PassedOn) ∧
  (results self = [] → mousePressEvent self maxy 1 y = Selected None) ∧
  (results self ≠ [] →
     mousePressEvent self maxy button y = PassedOn ∨
     ∃ i, mousePressEvent self maxy button y = Selected (Some i) ∧
          item_from_y self maxy y = Some i ∧
          0 ≤ i < Py.len (results self)).
Proof. apply mousePressEvent_cases. Qed.

Lemma mousePressEvent_outcome_witness :
  mousePressEvent Results_init 100 3 30 = PassedOn ∧
  mousePressEvent Results_init 100 1 30 = Selected None.
Proof.
  split.
  - apply (proj1 (mousePressEvent_outcome Results_init 100 3 30)). lia.
  - exact (proj1 (proj2 (mousePressEvent_outcome Results_init 100 1 30))
             eq_refl).
Defined.

(** ** The result list: what every call keeps *)

Lemma paint_rows_shape bottom rows :
  ∀ i y m,
    let laid := (paint_rows bottom rows i y m).2 in
    laid.*1 = seqZ i (Py.len laid) ∧
    Py.len laid ≤ Py.len rows ∧
    (paint_rows bottom rows i y m).1 =
      (if Py.len laid =? 0 then m else i + Py.len laid - 1).
Proof.
  unfold Py.len.
  induction rows as [|[[prefix full] text] rows IH]; intros i y m;
    cbn [paint_rows].
  - by repeat split.
  - destruct (y + height prefix >? bottom); [simpl; repeat split; lia|].
    specialize (IH (i + 1)
      (y + Results_const.MARGIN / 2 + height prefix + Results_const.MARGIN / 2)
      i).
    destruct (paint_rows bottom rows (i + 1) _ i) as [m' laid].
    cbn [fst snd] in *. destruct IH as (Hidx & Hlen & Hmax).
    rewrite fmap_cons, !length_cons, Hidx. cbn [fst].
    split_and!.
    + rewrite (seqZ_cons i) by lia. f_equal. f_equal; lia.
    + lia.
    + rewrite Hmax. destruct (Z.eqb_spec (Z.of_nat (length laid)) 0);
      destruct (Z.eqb_spec (Z.of_nat (S (length laid))) 0); lia.
Qed.

Lemma paint_rows_mono bottom bottom' rows :
  bottom ≤ bottom' →
  ∀ i y m m',
    (paint_rows bottom rows i y m).2 `prefix_of`
    (paint_rows bottom' rows i y m').2.
Proof.
  intros Hb. induction rows as [|[[prefix full] text] rows IH];
    intros i y m m'; cbn [paint_rows].
  - done.
  - destruct (Z.gtb_spec (y + height prefix) bottom);
      [apply prefix_nil|].
    destruct (Z.gtb_spec (y + height prefix) bottom'); [lia|].
    specialize (IH (i + 1)
      (y + Results_const.MARGIN / 2 + height prefix + Results_const.MARGIN / 2)
      i i).
    destruct (paint_rows bottom rows (i + 1) _ i) as [m1 laid1].
    destruct (paint_rows bottom' rows (i + 1) _ i) as [m2 laid2].
    cbn [snd] in *. by apply prefix_cons.
Qed.

Lemma paintEvent_shape (self : Results) (bottom bottom' : Z) :
  let laid := (paintEvent self bottom).2 in
  let self' := (paintEvent self bottom).1 in
  laid.*1 = seqZ 0 (Py.len laid) ∧
  Py.len laid ≤ Py.len (results self) ∧
  max_result self' =
    (if Py.len laid =? 0 then max_result self else Py.len laid - 1) ∧
  results self' = results self ∧
  current_result self' = current_result self ∧
  mouse_hover_result self' = mouse_hover_result self ∧
  updates self' = updates self ∧
  (bottom ≤ bottom' → laid `prefix_of` (paintEvent self bottom').2).
Proof.
  intros laid self'. subst laid self'. unfold paintEvent.
  pose proof (paint_rows_shape bottom (results self) 0 0 (max_result self))
    as Hshape.
  pose proof (λ H, paint_rows_mono bottom bottom' (results self) H 0 0
    (max_result self) (max_result self)) as Hmono.
  destruct (paint_rows bottom (results self) 0 0 (max_result self))
    as [m laid].
  destruct (paint_rows bottom' (results self) 0 0 (max_result self))
    as [m' laid'].
  cbn [fst snd max_result results current_result mouse_hover_result updates]
    in *.
  destruct Hshape as (Hidx & Hlen & Hmax).
  split_and!; try done; by rewrite Hmax, Z.add_0_l.
Qed.


(** X6. What [paintEvent] lays out, for rows of any heights: the rows 0,
    1, ... up to some row, never more rows than there are; [max_result]
    becomes the index of the last row laid out and stays as it was when no
    row fits; results, selection and hover are untouched.  A widget that
    reaches further down lays out the same rows at the same heights, and
    possibly more after them. *)
Theorem paintEvent_rows (self : Results) (bottom bottom' : Z) :
  let laid := (paintEvent self bottom).2 in
  let self' := (paintEvent self bottom).1 in
  laid.*1 = seqZ 0 (Py.len laid) ∧
  Py.len laid ≤ Py.len (results self) ∧
  max_result self' =
    (if Py.len laid =? 0 then max_result self else Py.len laid - 1) ∧
  results self' = results self ∧
  current_result self' = current_result self ∧
  mouse_hover_result self' = mouse_hover_result self ∧
  updates self' = updates self ∧
  (bottom ≤ bottom' → laid `prefix_of` (paintEvent self bottom').2).
Proof. apply paintEvent_shape. Qed.

Lemma paintEvent_rows_witness :
  let row h := ({| markup := u "<b>a</b>"; height := h |},
                {| markup := u "a"; height := h |}, u "a") in
  let self := {| results := [row 10; row 30; row 10]; current_result := 0;
                 max_result := 2; mouse_hover_result := -1; updates := 0 |} in
  (paintEvent self 20).2 `prefix_of` (paintEvent self 50).2.
Proof.
  intros row self.
  refine (proj2 (proj2 (proj2 (proj2 (proj2 (proj2 (proj2
    (paintEvent_rows self 20 50))))))) _). lia.
Defined.

Lemma make_rows_texts prep text_height matches rows :
  make_rows prep text_height matches = Some rows →
  (λ row, row.2) <$> rows = matches.*1.
Proof.
  revert rows. induction matches as [|[text positions] rest IH];
    intros rows; cbn [make_rows].
  - by intros [= <-].
  - destruct (make_text prep text_height text positions) as [full|];
      [|done]. cbn [mbind option_bind].
    destruct (make_rows prep text_height rest) as [rows'|]; [|done].
    cbn [mbind option_bind]. intros [= <-].
    rewrite !fmap_cons. cbn [fst snd]. f_equal. by apply IH.
Qed.

Lemma Results_call_rows prep text_height self matches st :
  Results_call prep text_height self matches = Some st →
  (λ row, row.2) <$> results st = matches.*1 ∧
  current_result st = (match matches with [] => -1 | _ :: _ => 0 end) ∧
  max_result st = Z.min 10 (Py.len matches - 1) ∧
  mouse_hover_result st = -1.
Proof.
  unfold Results_call. intros H.
  destruct matches as [|m rest].
  - cbn [mbind option_bind] in H. injection H as <-. by repeat split.
  - destruct (make_rows prep text_height (m :: rest)) as [rows|] eqn:Hrows;
      [|done].
    cbn [mbind option_bind] in H. injection H as <-.
    cbn [results update current_result max_result mouse_hover_result].
    pose proof (make_rows_length _ _ _ _ Hrows) as Hlen.
    split_and!; try done.
    + by apply make_rows_texts in Hrows.
    + unfold Py.len. by rewrite Hlen.
Qed.

Lemma selection_in_rows_step prep text_height self op self' :
  selection_in_rows self →
  results_step prep text_height self op = Some self' →
  selection_in_rows self'.
Proof.
  intros [Hmax Hcur] Hstep. destruct op as [matches|delta|bottom|maxy button y];
    cbn [results_step] in Hstep.
  - apply Results_call_rows in Hstep as (Htexts & Hc & Hm & _).
    assert (Hlen : Py.len (results self') = Py.len matches).
    { unfold Py.len. apply (f_equal length) in Htexts.
      rewrite !length_fmap in Htexts. by rewrite Htexts. }
    unfold selection_in_rows. rewrite Hm, Hc, Hlen. split; [lia|].
    destruct (results self') as [|r rs] eqn:Hres;
      destruct matches as [|m ms]; unfold Py.len in *; simpl in *;
      try done; lia.
  - injection Hstep as <-. unfold change_current, selection_in_rows in *.
    destruct (results self) as [|r rs] eqn:Hres; [by rewrite Hres|].
    destruct (Z.leb_spec 0 (current_result self + delta));
    destruct (Z.leb_spec (current_result self + delta) (max_result self));
      cbn [andb update results current_result max_result]; rewrite ?Hres;
      split; try done; lia.
  - injection Hstep as <-.
    destruct (paintEvent_shape self bottom bottom)
      as (_ & Hlen & Hm & Hres & Hc & _).
    unfold selection_in_rows. rewrite Hm, Hres, Hc. split; [|done].
    destruct (_ =? 0); lia.
  - destruct (mousePressEvent_cases self maxy button y)
      as (_ & _ & Hpress).
    destruct (mousePressEvent self maxy button y) as [|[i|]] eqn:Hout;
      [by injection Hstep as <-| |done].
    injection Hstep as <-.
    unfold selection_in_rows.
    cbn [update results current_result max_result]. split; [done|].
    destruct (results self) as [|r rs] eqn:Hres.
    + unfold mousePressEvent, item_from_y in Hout. rewrite Hres in Hout.
      by destruct (button =? 1).
    + destruct Hpress as [Hp|(i' & Hp & _ & Hi)]; [done|done|].
      by injection Hp as <-.
Qed.

Lemma item_nonneg {A} (s : list A) (i : Z) :
  0 ≤ i → Py.item s i = s !! Z.to_nat i.
Proof. intros Hi. unfold Py.item. by destruct (Z.leb_spec 0 i); [|lia]. Qed.

Lemma selected_result_in_rows (self : Results) :
  selection_in_rows self →
  match results self with
  | [] => selected_result self = None
  | _ :: _ =>
      ∃ row, results self !! Z.to_nat (current_result self) = Some row ∧
             selected_result self = Some row.2
  end.
Proof.
  intros [_ Hcur]. unfold selected_result.
  destruct (results self) as [|r rs] eqn:Hres.
  - rewrite Hcur. reflexivity.
  - unfold Py.len in Hcur.
    rewrite item_nonneg by lia.
    destruct (lookup_lt_is_Some_2 (r :: rs) (Z.to_nat (current_result self)))
      as [row Hrow]; [lia|].
    exists row. by rewrite Hrow.
Qed.

Lemma selection_in_rows_run prep text_height ops :
  ∀ self self',
    selection_in_rows self →
    results_run prep text_height self ops = Some self' →
    selection_in_rows self'.
Proof.
  induction ops as [|op ops IH]; intros self self' Hinv; cbn [results_run].
  - by intros [= <-].
  - destruct (results_step prep text_height self op) as [self1|] eqn:Hstep;
      [|done].
    apply IH. by eapply selection_in_rows_step.
Qed.

(** X7. Through any sequence of calls ([__call__], [change_current],
    [paintEvent], mouse presses) on a fresh widget, none of them raising
    and no press storing [None], [max_result] stays below the number of
    rows and the selection indexes a row that exists, so that
    [selected_result] returns the text of the selected row whenever there
    are results; without results the selection is -1 and [selected_result]
    returns [None]. *)
Theorem selection_always_in_rows
    (prepare_string_for_xml : unicode → unicode) (text_height : unicode → Z)
    (ops : list results_op) (self : Results) :
  results_run prepare_string_for_xml text_height Results_init ops =
    Some self →
  max_result self < Py.len (results self) ∧
  match results self with
  | [] => current_result self = -1 ∧ selected_result self = None
  | _ :: _ =>
      0 ≤ current_result self < Py.len (results self) ∧
      ∃ row, results self !! Z.to_nat (current_result self) = Some row ∧
             selected_result self = Some row.2
  end.
Proof.
  intros Hrun.
  assert (Hinit : selection_in_rows Results_init) by (split; [done|done]).
  pose proof (selection_in_rows_run _ _ _ _ _ Hinit Hrun) as Hinv.
  pose proof (selected_result_in_rows self Hinv) as Hsel.
  destruct Hinv as [Hmax Hcur]. split; [done|].
  by destruct (results self).
Qed.

Lemma selection_always_in_rows_witness :
  ∃ self,
    results_run xml_escape (λ _, 10) Results_init
      [Call [(u "a/b.html", [2; 0]); (u "c&d", [-1]); (u "e", [0])];
       ChangeCurrent 1; Paint 20; Press 100 1 30; ChangeCurrent (-1)] =
      Some self ∧
    max_result self < 3 ∧
    selected_result self = Some (u "e").
Proof.
  eexists. split; [vm_compute; reflexivity|].
  match goal with
  | |- max_result ?s < _ ∧ _ =>
      pose proof (selection_always_in_rows xml_escape (λ _, 10)
        [Call [(u "a/b.html", [2; 0]); (u "c&d", [-1]); (u "e", [0])];
         ChangeCurrent 1; Paint 20; Press 100 1 30; ChangeCurrent (-1)]
        s eq_refl) as [Hmax _]
  end.
  split; [exact Hmax|reflexivity].
Defined.

(** ** Filterable names list: finding a name *)

Lemma find_name_loop_spec items name :
  ∀ i,
    match find_name_loop items name i with
    | Some r =>
        i ≤ r ∧
        (∃ ps, items !! Z.to_nat (r - i) = Some (name, ps)) ∧
        ∀ j ps, (j < Z.to_nat (r - i))%nat → items !! j ≠ Some (name, ps)
    | None => name ∉ items.*1
    end.
Proof.
  induction items as [|[text positions] rest IH]; intros i;
    cbn [find_name_loop].
  - apply not_elem_of_nil.
  - case_bool_decide as Htext.
    + subst text. rewrite Z.sub_diag. split_and!; [lia|by eexists|].
      intros j ps Hj. simpl in Hj. lia.
    + specialize (IH (i + 1)).
      destruct (find_name_loop rest name (i + 1)) as [r|].
      * destruct IH as (Hle & [ps Hps] & Hfirst).
        replace (Z.to_nat (r - i)) with (S (Z.to_nat (r - (i + 1)))) by lia.
        split_and!; [lia|by exists ps|].
        intros [|j] ps' Hj; simpl; [congruence|].
        apply Hfirst. lia.
      * rewrite fmap_cons. cbn [fst]. rewrite not_elem_of_cons. by split.
Qed.

Lemma find_name_spec (self : NamesModel) (name : unicode) :
  match find_name self name with
  | Some r =>
      0 ≤ r < rowCount self ∧
      (∃ ps, nm_items self !! Z.to_nat r = Some (name, ps)) ∧
      ∀ j ps, (j < Z.to_nat r)%nat → nm_items self !! j ≠ Some (name, ps)
  | None => name ∉ (nm_items self).*1
  end.
Proof.
  unfold find_name.
  pose proof (find_name_loop_spec (nm_items self) name 0) as H.
  destruct (find_name_loop (nm_items self) name 0) as [r|]; [|done].
  destruct H as (Hle & [ps Hps] & Hfirst). rewrite Z.sub_0_r in *.
  unfold rowCount, Py.len.
  pose proof (lookup_lt_Some _ _ _ Hps) as Hlt.
  split_and!; [lia|lia|by exists ps|done].
Qed.

(** X9. [find_name] returns the first row whose text is the name, and
    [data] for that row and the user role gives the name back with the
    positions of that row; it returns [None] exactly when no row has the
    name.  In a model fresh from [set_names] there is one row per name,
    without positions, and each name is found at the place where it first
    stands in the list. *)
Theorem find_name_first_row (self : NamesModel) (name : unicode) :
  match find_name self name with
  | Some r =>
      0 ≤ r < rowCount self ∧
      (∃ ps, NamesModel_data self r UserRole =
               Some (QVariant_item (name, ps))) ∧
      ∀ r' ps, 0 ≤ r' < r →
        NamesModel_data self r' UserRole ≠ Some (QVariant_item (name, ps))
  | None => name ∉ (nm_items self).*1
  end ∧
  ∀ matcher names,
    let fresh := (set_names matcher self names).1 in
    rowCount fresh = Py.len names ∧
    ∀ (i : nat),
      names !! i = Some name →
      (∀ j, (j < i)%nat → names !! j ≠ Some name) →
      find_name fresh name = Some (Z.of_nat i) ∧
      NamesModel_data fresh (Z.of_nat i) UserRole =
        Some (QVariant_item (name, None)).
Proof.
  split.
  - pose proof (find_name_spec self name) as H.
    destruct (find_name self name) as [r|]; [|done].
    destruct H as (Hr & [ps Hps] & Hfirst).
    unfold NamesModel_data. split_and!; [lia|lia| |].
    + exists ps. rewrite item_nonneg by lia. by rewrite Hps.
    + intros r' ps' Hr'. rewrite item_nonneg by lia.
      intros Heq. apply (Hfirst (Z.to_nat r') ps'); [lia|].
      destruct (nm_items self !! Z.to_nat r'); [|done].
      by injection Heq as ->.
  - intros matcher names fresh.
    assert (Hitems : nm_items fresh = (λ text, (text, None)) <$> names)
      by done.
    split.
    { unfold rowCount, Py.len. by rewrite Hitems, length_fmap. }
    intros i Hi Hfirst.
    assert (Hrow : nm_items fresh !! i = Some (name, None))
      by (by rewrite Hitems, list_lookup_fmap, Hi).
    pose proof (find_name_spec fresh name) as H.
    destruct (find_name fresh name) as [r|].
    + destruct H as (Hr & [ps Hps] & Hmin).
      assert (Heq : Z.to_nat r = i).
      { destruct (Nat.lt_total (Z.to_nat r) i) as [Hlt|[Heq|Hgt]]; [|done|].
        - exfalso. apply (Hfirst _ Hlt).
          rewrite Hitems, list_lookup_fmap in Hps.
          destruct (names !! Z.to_nat r); [|done]. by injection Hps as ->.
        - exfalso. by apply (Hmin i None Hgt). }
      split; [f_equal; lia|].
      unfold NamesModel_data. rewrite item_nonneg by lia.
      by rewrite Nat2Z.id, Hrow.
    + exfalso. apply H. apply list_elem_of_fmap.
      exists (name, None). split; [done|].
      by apply list_elem_of_lookup_2 with i.
Qed.

Lemma find_name_first_row_witness :
  let self := {| nm_names := [u "a.html"; u "b.html"; u "a.html"];
                 nm_items := [(u "b.html", Some [0]); (u "a.html", None);
                              (u "a.html", Some [1])] |} in
  find_name self (u "a.html") = Some 1 ∧
  NamesModel_data self 1 UserRole = Some (QVariant_item (u "a.html", None)) ∧
  find_name self (u "c.html") = None ∧
  u "c.html" ∉ (nm_items self).*1.
Proof.
  intros self.
  pose proof (proj1 (find_name_first_row self (u "c.html"))) as Hnone.
  split_and!; [reflexivity|reflexivity|reflexivity|exact Hnone].
Defined.

(** ** Arrange in folders: the folder map *)

Lemma lstrip_chars_head (chars s : unicode) (c : N) :
  head (lstrip_chars chars s) = Some c → c ∉ chars.
Proof.
  induction s as [|x s IH]; cbn [lstrip_chars]; [done|].
  case_bool_decide; [done|]. simpl. by intros [= <-].
Qed.

Lemma lstrip_chars_id (chars s : unicode) :
  (∀ c, head s = Some c → c ∉ chars) → lstrip_chars chars s = s.
Proof.
  destruct s as [|x s]; cbn [lstrip_chars]; [done|]. intros H.
  by rewrite bool_decide_eq_false_2 by (by apply H).
Qed.

Lemma lstrip_chars_last (chars s : unicode) (c : N) :
  last (lstrip_chars chars s) = Some c → last s = Some c.
Proof.
  induction s as [|x s IH]; cbn [lstrip_chars]; [done|].
  case_bool_decide; [|done].
  intros Hl. specialize (IH Hl). by destruct s.
Qed.

Lemma strip_chars_ends (chars s : unicode) (c : N) :
  head (strip_chars chars s) = Some c ∨ last (strip_chars chars s) = Some c →
  c ∉ chars.
Proof.
  unfold strip_chars. rewrite head_reverse, last_reverse. intros [H|H].
  - apply lstrip_chars_last in H. rewrite last_reverse in H.
    by apply lstrip_chars_head in H.
  - by apply lstrip_chars_head in H.
Qed.

Lemma strip_chars_trailing (chars v : unicode) (c : N) :
  c ∈ chars →
  (∀ x, head v = Some x → x ∉ chars) →
  (∀ x, last v = Some x → x ∉ chars) →
  strip_chars chars (v ++ [c]) = v.
Proof.
  intros Hc Hhead Hlast. unfold strip_chars.
  destruct v as [|y v].
  - cbn [app lstrip_chars]. by rewrite bool_decide_eq_true_2.
  - rewrite (lstrip_chars_id chars ((y :: v) ++ [c])) by apply Hhead.
    rewrite reverse_snoc. cbn [lstrip_chars].
    rewrite bool_decide_eq_true_2 by done.
    rewrite lstrip_chars_id; [apply reverse_involutive|].
    intros x. rewrite head_reverse. apply Hlast.
Qed.

Lemma setup_ui_loop_lookup (folders : gmap unicode unicode)
    (types : list (unicode * unicode)) :
  ∀ (edits : gmap unicode unicode) typ,
    foldl (λ edits item, <[item.1 := folder_text folders item.1]> edits)
      edits types !! typ =
    if decide (typ ∈ types.*1) then Some (folder_text folders typ)
    else edits !! typ.
Proof.
  induction types as [|[t label] rest IH]; intros edits typ; cbn [foldl].
  - rewrite decide_False; [done|]. apply not_elem_of_nil.
  - rewrite IH. rewrite fmap_cons. cbn [fst].
    destruct (decide (typ ∈ rest.*1)) as [Hin|Hout].
    + rewrite decide_True; [done|]. by right.
    + destruct (decide (typ = t)) as [->|Hne].
      * rewrite lookup_insert_eq. rewrite decide_True; [done|]. by left.
      * rewrite lookup_insert_ne by done.
        rewrite decide_False; [done|].
        rewrite not_elem_of_cons. by split.
Qed.

Lemma folder_map_loop_lookup (edits : gmap unicode unicode)
    (types : list (unicode * unicode)) :
  ∀ ans,
    (∀ typ, typ ∈ types.*1 → is_Some (edits !! typ)) →
    ∃ fm,
      folder_map_loop edits types ans = Some fm ∧
      ∀ typ,
        fm !! typ =
          if decide (typ ∈ types.*1)
          then (λ text, strip_chars (u "/") (strip text)) <$> edits !! typ
          else ans !! typ.
Proof.
  induction types as [|[t label] rest IH]; intros ans Hall;
    cbn [folder_map_loop].
  - exists ans. split; [done|]. intros typ.
    rewrite decide_False; [done|]. apply not_elem_of_nil.
  - destruct (Hall t) as [text Ht]; [rewrite fmap_cons; by left|].
    rewrite Ht. cbn [mbind option_bind].
    destruct (IH (<[t := strip_chars (u "/") (strip text)]> ans))
      as (fm & Hfm & Hlook).
    { intros typ Htyp. apply Hall. rewrite fmap_cons. by right. }
    exists fm. split; [done|]. intros typ. rewrite Hlook.
    rewrite fmap_cons. cbn [fst].
    destruct (decide (typ ∈ rest.*1)) as [Hin|Hout].
    + rewrite decide_True; [done|]. by right.
    + destruct (decide (typ = t)) as [->|Hne].
      * rewrite lookup_insert_eq, Ht. rewrite decide_True; [done|]. by left.
      * rewrite lookup_insert_ne by done.
        rewrite decide_False; [done|].
        rewrite not_elem_of_cons. by split.
Qed.

Lemma endswith_last (s : unicode) (c : N) :
  endswith s [c] = true → last s = Some c.
Proof.
  unfold endswith. intros H. apply bool_decide_eq_true_1 in H.
  rewrite <- (take_drop (length s - length [c]) s), H.
  by rewrite last_snoc.
Qed.

Lemma clean_folder_round_trip (folders : gmap unicode unicode)
    (typ : unicode) :
  clean_folder (default [] (folders !! typ)) →
  strip_chars (u "/") (strip (folder_text folders typ)) =
    default [] (folders !! typ).
Proof.
  unfold folder_text. generalize (default [] (folders !! typ)). intros v.
  intros ([Hh Hl] & Hhead & Hlast).
  destruct v as [|c v']; [reflexivity|].
  set (v := c :: v') in *.
  change (u "/") with [47%N].
  destruct (endswith v [47%N]) eqn:He.
  { apply endswith_last in He. done. }
  cbn [negb].
  rewrite strip_of_stripped.
  - apply strip_chars_trailing.
    + by left.
    + intros x Hx Hin. apply list_elem_of_singleton in Hin as ->. done.
    + intros x Hx Hin. apply list_elem_of_singleton in Hin as ->. done.
  - split; intros x.
    + subst v. cbn. intros [= <-]. by apply Hh.
    + rewrite last_snoc. by intros [= <-].
Qed.

(** X10. The folder map of a dialog as [setup_ui] built it from the stored
    folders exists and has an entry for each of the eight types and for
    nothing else; no entry starts or ends with a slash; and a stored folder
    that is clean (no white space and no slash at either end, the empty
    folder included) comes back as it was stored, a type without a stored
    folder as the empty string.  [accept] stores this map and, through
    [Dialog.accept], the window geometry. *)
Theorem folder_map_round_trip
    (d : Dialog) (folders : gmap unicode unicode) (w : gui) :
  let self := {| rf_dialog := d;
                 folder_edits := RationalizeFolders_setup_ui folders |} in
  ∃ fm,
    folder_map self = Some fm ∧
    (∀ typ, is_Some (fm !! typ) ↔ typ ∈ TYPE_MAP.*1) ∧
    (∀ typ v, fm !! typ = Some v →
       head v ≠ Some 47%N ∧ last v ≠ Some 47%N) ∧
    (∀ typ, typ ∈ TYPE_MAP.*1 →
       clean_folder (default [] (folders !! typ)) →
       fm !! typ = Some (default [] (folders !! typ))) ∧
    RationalizeFolders_accept self w =
      Some ({| rf_dialog := close d Accepted;
               folder_edits := RationalizeFolders_setup_ui folders |},
            fm, (Dialog_accept d w).2).
Proof.
  intros self.
  assert (Hedits : ∀ typ, folder_edits self !! typ =
    if decide (typ ∈ TYPE_MAP.*1) then Some (folder_text folders typ)
    else None).
  { intros typ. subst self. cbn [folder_edits].
    unfold RationalizeFolders_setup_ui. by rewrite setup_ui_loop_lookup. }
  destruct (folder_map_loop_lookup (folder_edits self) TYPE_MAP ∅)
    as (fm & Hfm & Hlook).
  { intros typ Htyp. rewrite Hedits. by rewrite decide_True. }
  exists fm. split_and!.
  - done.
  - intros typ. rewrite Hlook, Hedits.
    destruct (decide (typ ∈ TYPE_MAP.*1)); cbn [fmap option_fmap option_map].
    + split; [done|by eexists].
    + rewrite lookup_empty. split; [by intros [? ?]|done].
  - intros typ v. rewrite Hlook, Hedits.
    destruct (decide (typ ∈ TYPE_MAP.*1)); [|by rewrite lookup_empty].
    cbn [fmap option_fmap option_map]. intros [= <-].
    split; intros H; eapply (strip_chars_ends (u "/")); eauto;
      change (u "/") with [47%N]; by left.
  - intros typ Htyp Hclean. rewrite Hlook, Hedits.
    rewrite !decide_True by done. cbn [fmap option_fmap option_map].
    by rewrite clean_folder_round_trip.
  - unfold RationalizeFolders_accept. unfold folder_map in *. rewrite Hfm.
    cbn [mbind option_bind]. unfold Dialog_accept. reflexivity.
Qed.

Lemma clean_folderb_spec (v : unicode) :
  clean_folderb v = true → clean_folder v.
Proof.
  unfold clean_folderb, clean_folder, stripped.
  rewrite andb_true_iff. intros [Hh Hl].
  destruct (head v) as [c|], (last v) as [c'|];
    rewrite ?andb_true_iff, ?negb_true_iff, ?N.eqb_neq in *;
    repeat split; try done; try (intros x [= <-]; tauto);
    intros [= ->]; tauto.
Qed.

Lemma folder_map_round_trip_witness :
  let d := {| name := u "rationalize-folders"; geometry := [];
              splitter := None; code := Pending |} in
  let folders : gmap unicode unicode :=
    {[ u "image" := u "images"; u "text" := u "text/ch" ]} in
  ∃ fm,
    folder_map {| rf_dialog := d;
                  folder_edits := RationalizeFolders_setup_ui folders |} =
      Some fm ∧
    fm !! u "image" = Some (default [] (folders !! u "image")) ∧
    fm !! u "font" = Some (default [] (folders !! u "font")).
Proof.
  intros d folders.
  destruct (folder_map_round_trip d folders {| tprefs := ∅; trace := [] |})
    as (fm & Hfm & _ & _ & Hround & _).
  exists fm. split_and!; [exact Hfm| |].
  - apply (Hround (u "image")).
    + rewrite list_elem_of_In. vm_compute. tauto.
    + apply clean_folderb_spec. vm_compute. reflexivity.
  - apply (Hround (u "font")).
    + rewrite list_elem_of_In. vm_compute. tauto.
    + apply clean_folderb_spec. vm_compute. reflexivity.
Defined.

(** ** ImportForeign: choosing the source *)

Lemma rpartition_head_head (sep : N) (s : unicode) (c : N) :
  head (rpartition_head sep s) = Some c → head s = Some c.
Proof.
  unfold rpartition_head. destruct s as [|x s]; cbn [rpartition]; [done|].
  destruct (rpartition sep s) as [[h t]|]; [done|].
  by destruct (x =? sep)%N.
Qed.

Lemma data_dest_stripped (self : ImportForeign) :
  stripped (ImportForeign_data self).2 ∧ (ImportForeign_data self).2 ≠ [].
Proof.
  unfold ImportForeign_data. cbn [snd].
  destruct (strip (dest self)) as [|c d] eqn:Hd.
  - split; [|by destruct (rpartition_head 46 (strip (src self)))].
    pose proof (strip_stripped (src self)) as [Hh _].
    split; intros x.
    + destruct (rpartition_head 46 (strip (src self))) as [|y h] eqn:Hhead.
      * by intros [= <-].
      * cbn. intros [= <-]. apply Hh.
        apply (rpartition_head_head 46). by rewrite Hhead.
    + change (u ".epub") with (u ".epu" ++ [98%N]).
      rewrite (assoc_L (++)), last_snoc. by intros [= <-].
  - rewrite <- Hd. split; [apply strip_stripped|]. by rewrite Hd.
Qed.

(** X11. Setting the source leaves a destination the user has entered in
    place, stripped of white space at its ends, and fills a blank
    destination with the name derived from the new source.  Afterwards
    [data] returns what it would return for the new source text and the
    old destination text, and setting the same source again changes
    nothing. *)
Theorem set_src_destination (self : ImportForeign) (path : unicode) :
  let typed := {| if_dialog := if_dialog self; src := path;
                  dest := dest self |} in
  src (set_src self path) = path ∧
  (strip (dest self) ≠ [] → dest (set_src self path) = strip (dest self)) ∧
  (strip (dest self) = [] →
     dest (set_src self path) =
       rpartition_head 46 (strip path) ++ u ".epub") ∧
  ImportForeign_data (set_src self path) = ImportForeign_data typed ∧
  set_src (set_src self path) path = set_src self path.
Proof.
  intros typed.
  pose proof (data_dest_stripped typed) as [Hstripped Hne].
  assert (Hdata : ImportForeign_data (set_src self path) =
                  ImportForeign_data typed).
  { unfold set_src. fold typed. unfold ImportForeign_data at 1.
    cbn [src dest]. rewrite (strip_of_stripped _ Hstripped).
    destruct (ImportForeign_data typed).2 as [|c d] eqn:Hd; [done|].
    rewrite <- Hd. unfold ImportForeign_data. cbn [src snd]. done. }
  split_and!.
  - done.
  - intros Hdest. unfold set_src, ImportForeign_data. cbn [dest src snd].
    by destruct (strip (dest self)).
  - intros Hdest. unfold set_src, ImportForeign_data. cbn [dest src snd].
    by rewrite Hdest.
  - done.
  - unfold set_src at 1. cbn [if_dialog src dest].
    change {| if_dialog := if_dialog (set_src self path); src := path;
              dest := dest (set_src self path) |} with (set_src self path).
    by rewrite Hdata.
Qed.

Lemma set_src_destination_witness :
  let self := {| if_dialog := {| name := u "import-foreign"; geometry := [];
                                 splitter := None; code := Pending |};
                 src := []; dest := u " out.epub " |} in
  dest (set_src self (u "in.docx")) = u "out.epub" ∧
  dest (set_src (set_src self (u "in.docx")) (u "other.html")) = u "out.epub".
Proof.
  intros self. split.
  - apply (proj1 (proj2 (set_src_destination self (u "in.docx")))).
    discriminate.
  - apply (proj1 (proj2 (set_src_destination (set_src self (u "in.docx"))
      (u "other.html")))).
    discriminate.
Defined.

(** ** Insert Semantics: the target line *)

Lemma partition_no_sep (sep : N) (s : unicode) :
  sep ∉ s → partition sep s = (s, []).
Proof.
  induction s as [|c s IH]; cbn [partition]; [done|].
  rewrite not_elem_of_cons. intros [Hc Hs].
  destruct (N.eqb_spec c sep); [congruence|]. by rewrite IH.
Qed.

Lemma partition_at_sep (sep : N) (h t : unicode) :
  sep ∉ h → partition sep (h ++ sep :: t) = (h, t).
Proof.
  induction h as [|c h IH]; cbn [partition app].
  - by rewrite N.eqb_refl.
  - rewrite not_elem_of_cons. intros [Hc Hs].
    destruct (N.eqb_spec c sep); [congruence|]. by rewrite IH.
Qed.

Lemma partition_head_no_sep (sep : N) (s : unicode) :
  sep ∉ (partition sep s).1.
Proof.
  induction s as [|c s IH]; cbn [partition]; [apply not_elem_of_nil|].
  destruct (N.eqb_spec c sep); [apply not_elem_of_nil|].
  destruct (partition sep s) as [h t]. cbn [fst] in *.
  rewrite not_elem_of_cons. by split.
Qed.

Lemma target_text_changed_final (self : InsertSemantics) (text : unicode) :
  final_type_map (target_text_changed self text) =
    <[semantic_type self :=
        ((partition 35 text).1,
         match (partition 35 text).2 with
         | [] => None
         | _ :: _ => Some (partition 35 text).2
         end)]> (final_type_map self) ∧
  original_type_map (target_text_changed self text) = original_type_map self ∧
  semantic_type (target_text_changed self text) = semantic_type self.
Proof.
  unfold target_text_changed. by destruct (partition 35 text).
Qed.

Lemma update_target_text_parse (name text : unicode)
    (anchor : option unicode) :
  35%N ∉ name →
  update_target_text (Some name) anchor = Some text →
  partition 35 text =
    (name, match anchor with Some ((_ :: _) as a) => a | _ => [] end).
Proof.
  intros Hname Htext. unfold update_target_text in Htext.
  apply (inj Some) in Htext. subst text. change (u "#") with [35%N].
  destruct anchor as [[|c a]|]; rewrite ?app_nil_r.
  - destruct name; [reflexivity|by apply partition_no_sep].
  - destruct name as [|x name]; cbn [app].
    + by apply (partition_at_sep 35 []).
    + by apply (partition_at_sep 35 (x :: name)).
  - destruct name; [reflexivity|by apply partition_no_sep].
Qed.

(** X12. The text [update_target] builds from a selected file and anchor
    is read back by [target_text_changed] as that file and that anchor:
    for a file name that holds no number sign, the entry stored for the
    current type is the name with the anchor, or with [None] when no
    anchor or an empty one is selected. *)
Theorem update_target_round_trip
    (self : InsertSemantics) (name text : unicode) (anchor : option unicode) :
  35%N ∉ name →
  update_target_text (Some name) anchor = Some text →
  final_type_map (target_text_changed self text) !! semantic_type self =
    Some (name, match anchor with
                | Some ((_ :: _) as a) => Some a
                | _ => None
                end).
Proof.
  intros Hname Htext.
  destruct (target_text_changed_final self text) as (-> & _ & _).
  rewrite lookup_insert_eq.
  rewrite (update_target_text_parse name text anchor Hname Htext).
  cbn [fst snd]. by destruct anchor as [[|c a]|].
Qed.

Lemma update_target_round_trip_witness :
  let self := {| original_type_map := ∅; final_type_map := ∅;
                 semantic_type := u "toc" |} in
  final_type_map (target_text_changed self (u "nav.html#top")) !! u "toc" =
    Some (u "nav.html", Some (u "top")).
Proof.
  intros self.
  apply (update_target_round_trip self (u "nav.html") (u "nav.html#top")
           (Some (u "top"))).
  - rewrite list_elem_of_In. vm_compute. intuition discriminate.
  - reflexivity.
Defined.

Lemma show_type_text_parse (name : unicode) (frag : option unicode) :
  35%N ∉ name →
  partition 35 (show_type_text (Some name) frag) =
    (name, match frag with Some ((_ :: _) as f) => f | _ => [] end).
Proof.
  intros Hname. unfold show_type_text. change (u "#") with [35%N].
  destruct frag as [[|c f]|]; rewrite ?app_nil_r.
  - by apply partition_no_sep.
  - by apply partition_at_sep.
  - by apply partition_no_sep.
Qed.

(** X13. An entry written by [target_text_changed] is stable: showing it
    the way [semantic_type_changed] does and reading the shown text back
    leaves the dialog exactly as it is. *)
Theorem edited_entry_stable (self : InsertSemantics) (text : unicode) :
  let edited := target_text_changed self text in
  target_text_changed edited (semantic_type_changed_text edited) = edited.
Proof.
  intros edited. subst edited.
  destruct (target_text_changed_final self text) as (Hfin & Horig & Htype).
  unfold semantic_type_changed_text. rewrite Htype, Hfin, lookup_insert_eq.
  pose proof (partition_head_no_sep 35 text) as Hhead.
  destruct (partition 35 text) as [name frag] eqn:Hpart. cbn [fst snd] in *.
  set (text' := show_type_text _ _).
  assert (Hparse : partition 35 text' = (name, frag)).
  { subst text'. rewrite show_type_text_parse by done. by destruct frag. }
  unfold target_text_changed at 1. rewrite Hparse.
  unfold target_text_changed. rewrite Hpart.
  cbn [original_type_map final_type_map semantic_type].
  by rewrite insert_insert_eq.
Qed.

(** X14. Entering again, for a guide entry, the very text the dialog shows
    for it leaves an entry with a fragment unchanged, but marks an entry
    without fragment as changed: the snapshot keeps a missing fragment as
    the empty string, an edit keeps it as [None]. *)
Theorem guide_entry_reentered
    (self : InsertSemantics) (name frag : unicode) :
  original_type_map self !! semantic_type self = Some (name, Some frag) →
  35%N ∉ name →
  changed_type_map
    (target_text_changed self (show_type_text (Some name) (Some frag)))
    !! semantic_type self =
    match frag with
    | [] => Some (name, None)
    | _ :: _ => None
    end.
Proof.
  intros Horig Hname.
  set (text := show_type_text (Some name) (Some frag)).
  destruct (target_text_changed_final self text) as (Hfin & Ho & Htype).
  assert (Hparse : partition 35 text =
                   (name, match frag with [] => [] | _ :: _ => frag end)).
  { subst text. rewrite show_type_text_parse by done. by destruct frag. }
  rewrite Hparse in Hfin. cbn [fst snd] in Hfin.
  destruct frag as [|c f].
  - apply changed_type_map_lookup. rewrite Hfin, Ho, Horig, lookup_insert_eq.
    split; [done|]. by intros [= ?].
  - unfold changed_type_map. apply map_lookup_filter_None. right.
    intros x. cbn [fst snd]. rewrite Hfin, Ho, Horig, lookup_insert_eq.
    intros [= <-] Hne. by apply Hne.
Qed.

Lemma guide_entry_reentered_witness :
  let opened := InsertSemantics_init (λ href, (partition 35 href).1)
                  [(u "toc", u "nav.html#top"); (u "cover", u "cover.html")]
                  (u "cover") in
  changed_type_map (target_text_changed opened (u "cover.html")) !! u "cover" =
    Some (u "cover.html", None).
Proof.
  intros opened.
  apply (guide_entry_reentered opened (u "cover.html") []).
  - vm_compute. reflexivity.
  - rewrite list_elem_of_In. vm_compute. intuition discriminate.
Defined.

Lemma set_guide_items_prefix translate lang items :
  gi_type <$> (set_guide_items translate lang items).1 `prefix_of` items.*1.
Proof.
  induction items as [|[k [nm fr]] rest IH]; cbn [set_guide_items].
  - done.
  - destruct (known_type_map !! k) as [title|]; [|apply prefix_nil].
    destruct (set_guide_items translate lang rest) as [calls ok].
    cbn [fst] in *. rewrite !fmap_cons. by apply prefix_cons.
Qed.

Lemma set_guide_items_titles translate lang items c :
  c ∈ (set_guide_items translate lang items).1 →
  ∃ title,
    known_type_map !! gi_type c = Some title ∧
    gi_title c = match lang with
                 | Some ((_ :: _) as l) => translate l title
                 | _ => title
                 end.
Proof.
  induction items as [|[k [nm fr]] rest IH]; cbn [set_guide_items].
  - by intros ?%elem_of_nil.
  - destruct (known_type_map !! k) as [title|] eqn:Hk;
      [|by intros ?%elem_of_nil].
    destruct (set_guide_items translate lang rest) as [calls ok].
    cbn [fst] in *. intros [->|Hc]%elem_of_cons; [|by apply IH].
    exists title. by cbn [gi_type gi_title].
Qed.

(** X15. A dialog that is accepted as it was opened writes nothing: the
    first [semantic_type_changed] runs in [setup_ui] (line 742) before the
    target line is connected to [target_text_changed] (line 744), so the
    final map is still the copy of the snapshot, [changed_type_map] is
    empty and [apply_changes] calls [set_guide_item] not once.  In every
    state, no item type is written twice, and every entry written carries
    the title [known_type_map] has for its type, translated into the whole
    language of the book when the book has one. *)
Theorem apply_changes_writes
    (href_to_name : unicode → unicode)
    (translate : unicode → unicode → unicode)
    (guide : list (unicode * unicode)) (first_type : unicode)
    (lang : option unicode) (self : InsertSemantics) :
  let opened := InsertSemantics_init href_to_name guide first_type in
  changed_type_map opened = ∅ ∧
  apply_changes translate opened lang = ([], true) ∧
  NoDup (gi_type <$> (apply_changes translate self lang).1) ∧
  (∀ c, c ∈ (apply_changes translate self lang).1 →
     ∃ title,
       known_type_map !! gi_type c = Some title ∧
       gi_title c = match lang with
                    | Some ((_ :: _) as l) => translate l title
                    | _ => title
                    end).
Proof.
  intros opened.
  assert (Hempty : changed_type_map opened = ∅).
  { apply map_eq. intros k. rewrite lookup_empty.
    unfold changed_type_map. apply map_lookup_filter_None.
    destruct (final_type_map opened !! k) as [v|] eqn:Hk; [|by left].
    right. intros x [= <-]. cbn [fst snd].
    subst opened. cbn in *. rewrite Hk. intros Hne. by apply Hne. }
  split_and!.
  - done.
  - unfold apply_changes. rewrite Hempty. by rewrite map_to_list_empty.
  - unfold apply_changes.
    destruct (set_guide_items_prefix translate lang
      (map_to_list (changed_type_map self))) as [k Hk].
    pose proof (NoDup_fst_map_to_list (changed_type_map self)) as Hnd.
    rewrite Hk in Hnd. by apply NoDup_app in Hnd as [? _].
  - intros c. apply set_guide_items_titles.
Qed.

(** A German book: the table of contents moves to another file, and the
    one entry written has its title translated with the language ["de"]. *)
Example apply_changes_translated :
  let translate := λ lang title : unicode, lang ++ u ":" ++ title in
  let opened := InsertSemantics_init (λ href, (partition 35 href).1)
                  [(u "toc", u "nav.html#top")] (u "toc") in
  let self := target_text_changed opened (u "contents.html") in
  apply_changes translate self (Some (u "de")) =
    ([{| gi_type := u "toc"; gi_title := u "de:Table of Contents";
         gi_name := u "contents.html"; gi_frag := None |}], true).
Proof. vm_compute. reflexivity. Qed.

(** ** Dialogs: one dialog and another *)

Lemma geometry_key_inj (a b : unicode) :
  geometry_key a = geometry_key b → a = b.
Proof. unfold geometry_key. apply app_inv_tail. Qed.

Lemma splitter_key_inj (a b : unicode) :
  splitter_key a = splitter_key b → a = b.
Proof. unfold splitter_key. apply app_inv_tail. Qed.

Lemma geometry_key_not_splitter_key (a b : unicode) :
  geometry_key a ≠ splitter_key b.
Proof.
  unfold geometry_key, splitter_key. intros H.
  apply (f_equal last) in H. rewrite !last_app in H.
  change (last (u "-geometry")) with (Some 121%N) in H.
  change (last (u "-splitter-state")) with (Some 101%N) in H.
  discriminate H.
Qed.

(** X16. Dialogs of different names do not disturb each other: accepting
    or rejecting one dialog leaves what is stored under the two keys of any
    other name as it was, so that a dialog of that name is built with the
    same geometry and splitter state as before. *)
Theorem dialogs_do_not_interfere
    (self : Dialog) (w : gui) (other : unicode) (size_hint : bytes)
    (fresh_splitter : option bytes) :
  other ≠ name self →
  let closed := (Dialog_accept self w).2 in
  tprefs closed !! geometry_key other = tprefs w !! geometry_key other ∧
  tprefs closed !! splitter_key other = tprefs w !! splitter_key other ∧
  tprefs (Dialog_reject self w).2 = tprefs closed ∧
  (Dialog_init other size_hint fresh_splitter closed).1 =
  (Dialog_init other size_hint fresh_splitter w).1.
Proof.
  intros Hother closed. subst closed.
  unfold Dialog_accept, Dialog_reject. cbn [snd emit tprefs].
  assert (Hg : tprefs (save_state self w) !! geometry_key other =
               tprefs w !! geometry_key other).
  { rewrite save_state_tprefs.
    rewrite (decide_False (P := _ ∧ _))
      by (intros [H _]; by apply geometry_key_not_splitter_key in H).
    rewrite decide_False; [done|].
    intros H. by apply geometry_key_inj in H. }
  assert (Hs : tprefs (save_state self w) !! splitter_key other =
               tprefs w !! splitter_key other).
  { rewrite save_state_tprefs.
    rewrite (decide_False (P := _ ∧ _))
      by (intros [H _]; by apply splitter_key_inj in H).
    rewrite decide_False; [done|].
    intros H. symmetry in H. by apply geometry_key_not_splitter_key in H. }
  split_and!; try done.
  unfold Dialog_init. cbn [tprefs emit]. rewrite Hg.
  destruct (tprefs w !! geometry_key other) as [geom|];
    destruct fresh_splitter as [fresh|]; cbn [tprefs emit]; rewrite ?Hs;
    try destruct (tprefs w !! splitter_key other); reflexivity.
Qed.

Lemma dialogs_do_not_interfere_witness :
  let self := {| name := u "quick-open"; geometry := [Byte.x78];
                 splitter := None; code := Pending |} in
  let w := {| tprefs := {[ geometry_key (u "insert-hyperlink") := [Byte.x79] ]};
              trace := [] |} in
  tprefs (Dialog_accept self w).2 !! geometry_key (u "insert-hyperlink") =
    Some [Byte.x79].
Proof.
  intros self w.
  refine (eq_trans (proj1 (dialogs_do_not_interfere self w
    (u "insert-hyperlink") [] None _)) _).
  - discriminate.
  - vm_compute. reflexivity.
Defined.

(** ** The result list: arrows and clicks *)

Lemma change_current_step (self : Results) (delta : Z) :
  results self ≠ [] →
  0 ≤ current_result self ≤ max_result self →
  delta = 1 ∨ delta = -1 →
  let self' := change_current self delta in
  results self' = results self ∧
  max_result self' = max_result self ∧
  mouse_hover_result self' = mouse_hover_result self ∧
  current_result self' =
    Z.max 0 (Z.min (current_result self + delta) (max_result self)) ∧
  Z.of_nat (updates self') =
    Z.of_nat (updates self) + Z.abs (current_result self' - current_result self).
Proof.
  intros Hne Hcur Hdelta. unfold change_current.
  destruct (results self) as [|r rs] eqn:Hres; [done|].
  destruct (Z.leb_spec 0 (current_result self + delta));
  destruct (Z.leb_spec (current_result self + delta) (max_result self));
    cbn [andb update results max_result current_result mouse_hover_result
         updates]; rewrite ?Hres; split_and!; try done; lia.
Qed.

Lemma press_arrow_moves (a : key) (delta : Z) (k : nat) :
  (a = Key_Down ∧ delta = 1) ∨ (a = Key_Up ∧ delta = -1) →
  ∀ q,
    results (qo_results q) ≠ [] →
    0 ≤ current_result (qo_results q) ≤ max_result (qo_results q) →
    ∃ q',
      press_arrow k a q = Some q' ∧
      qo_dialog q' = qo_dialog q ∧
      results (qo_results q') = results (qo_results q) ∧
      max_result (qo_results q') = max_result (qo_results q) ∧
      current_result (qo_results q') =
        Z.max 0 (Z.min (current_result (qo_results q) + delta * Z.of_nat k)
                       (max_result (qo_results q))) ∧
      Z.of_nat (updates (qo_results q')) =
        Z.of_nat (updates (qo_results q)) +
        Z.abs (current_result (qo_results q') - current_result (qo_results q)).
Proof.
  intros Ha. induction k as [|k IH]; intros q Hne Hcur; cbn [press_arrow].
  - exists q. split_and!; try done; lia.
  - assert (Hkey : keyPressEvent q a =
      Some {| qo_dialog := qo_dialog q;
              qo_results := change_current (qo_results q) delta;
              qo_matches := qo_matches q;
              qo_selected_result := qo_selected_result q;
              help_label_visible := help_label_visible q;
              results_visible := results_visible q |})
      by (by destruct Ha as [[-> ->]|[-> ->]]).
    rewrite Hkey. cbn [mbind option_bind].
    set (q1 := {| qo_dialog := qo_dialog q;
                  qo_results := change_current (qo_results q) delta |}).
    destruct (change_current_step (qo_results q) delta Hne Hcur)
      as (Hr1 & Hm1 & _ & Hc1 & Hu1); [lia|].
    destruct (IH q1) as (q' & Hq' & Hd & Hr & Hm & Hc & Hu).
    + subst q1. cbn [qo_results]. by rewrite Hr1.
    + subst q1. cbn [qo_results]. rewrite Hm1, Hc1. lia.
    + subst q1. cbn [qo_results qo_dialog] in *.
      exists q'. rewrite Hr, Hr1, Hm, Hm1, Hc, Hu, Hu1, Hc1, Hm1.
      split_and!; try done; lia.
Qed.

(** X17. Arrow keys after a query that found something: [k] presses of the
    down arrow move the selection down [k] rows and stop at [max_result],
    [k] presses of the up arrow after that move it back up and stop at the
    first row, so that the selection is back where it started whenever the
    way down did not hit the end.  Every press that moves the selection
    asks for one repaint and a press at the end asks for none; the rows,
    [max_result] and the dialog stay as they are. *)
Theorem arrows_down_then_up (q : QuickOpen) (k : nat) :
  results (qo_results q) ≠ [] →
  0 ≤ current_result (qo_results q) ≤ max_result (qo_results q) →
  let cur := current_result (qo_results q) in
  let max := max_result (qo_results q) in
  ∃ down up,
    press_arrow k Key_Down q = Some down ∧
    press_arrow k Key_Up down = Some up ∧
    current_result (qo_results down) = Z.min (cur + Z.of_nat k) max ∧
    current_result (qo_results up) =
      Z.max 0 (Z.min (cur + Z.of_nat k) max - Z.of_nat k) ∧
    (cur + Z.of_nat k ≤ max → current_result (qo_results up) = cur) ∧
    Z.of_nat (updates (qo_results down)) =
      Z.of_nat (updates (qo_results q)) +
      (current_result (qo_results down) - cur) ∧
    results (qo_results up) = results (qo_results q) ∧
    max_result (qo_results up) = max ∧
    qo_dialog up = qo_dialog q.
Proof.
  intros Hne Hcur cur max.
  destruct (press_arrow_moves Key_Down 1 k ltac:(by left) q Hne Hcur)
    as (down & Hdown & Hd1 & Hr1 & Hm1 & Hc1 & Hu1).
  destruct (press_arrow_moves Key_Up (-1) k ltac:(by right) down)
    as (up & Hup & Hd2 & Hr2 & Hm2 & Hc2 & Hu2).
  { by rewrite Hr1. }
  { rewrite Hm1, Hc1. lia. }
  exists down, up. subst cur max.
  rewrite Hc2, Hu1, Hc1, Hr2, Hr1, Hm2, Hm1, Hd2, Hd1.
  split_and!; try done; lia.
Qed.

Lemma arrows_down_then_up_witness :
  let row := ({| markup := u "<b>a</b>"; height := 10 |},
              {| markup := u "a"; height := 10 |}, u "a") in
  let q := {| qo_dialog := {| name := u "quick-open"; geometry := [];
                              splitter := None; code := Pending |};
              qo_results := {| results := [row; row; row];
                               current_result := 0; max_result := 2;
                               mouse_hover_result := -1; updates := 0 |};
              qo_matches := [u "a"; u "a"; u "a"];
              qo_selected_result := None;
              help_label_visible := false; results_visible := true |} in
  ∃ down up,
    press_arrow 5 Key_Down q = Some down ∧
    press_arrow 5 Key_Up down = Some up ∧
    current_result (qo_results down) = 2 ∧
    current_result (qo_results up) = 0 ∧
    updates (qo_results down) = 2%nat.
Proof.
  intros row q.
  destruct (arrows_down_then_up q 5) as (down & up & Hd & Hu & Hcd & Hcu & _
    & Hupd & _); [discriminate|simpl; lia|].
  exists down, up. split_and!; [exact Hd|exact Hu|exact Hcd|exact Hcu|].
  rewrite Hcd in Hupd. simpl in Hupd. lia.
Defined.

(** X18. A row that [paintEvent] has laid out can be selected with the
    mouse: with rows of one height, in a widget whose rectangle ends at or
    above its height, a left press anywhere in the band of a laid-out row
    (from its top line to the top line of the next row) makes
    [item_from_y] return that row and [mousePressEvent] select it. *)
Theorem laid_out_row_is_clickable
    (self : Results) (h bottom maxy i y_text y : Z) :
  0 < h →
  Forall (λ r, height r.1.1 = h) (results self) →
  bottom ≤ maxy →
  (i, y_text) ∈ (paintEvent self bottom).2 →
  y_text - Results_const.MARGIN / 2 ≤ y
    < y_text - Results_const.MARGIN / 2 + (h + Results_const.MARGIN) →
  item_from_y self maxy y = Some i ∧
  mousePressEvent self maxy 1 y = Selected (Some i).
Proof.
  intros Hh Hrows Hbottom Hlaid Hy.
  unfold paintEvent in Hlaid.
  pose proof (paint_rows_uniform h bottom (results self) Hh Hrows 0
    (max_result self) ltac:(lia)) as Hpaint.
  cbn zeta in Hpaint. rewrite Z.mul_0_l in Hpaint.
  rewrite Hpaint in Hlaid. cbn [snd] in Hlaid.
  apply list_elem_of_fmap in Hlaid as (j & [= -> ->] & Hj).
  apply elem_of_seqZ in Hj.
  assert (Hcap : j < capacity h bottom) by lia.
  assert (HN : j < Py.len (results self)) by lia.
  apply (row_fits_capacity h bottom j Hh) in Hcap; [|lia].
  rewrite Z.gtb_ltb, Z.ltb_ge in Hcap.
  unfold Results_const.MARGIN in *. change (4 / 2) with 2 in *.
  destruct (results self) as [|[[prefix full] text] rest] eqn:Hres.
  { unfold Py.len in HN. simpl in HN. lia. }
  assert (Hprefix : height prefix = h)
    by (by apply Forall_cons in Hrows as [? _]).
  assert (Hdiv : y / (h + 4) = j).
  { symmetry. apply (Z.div_unique_pos y (h + 4) j (y - j * (h + 4))); lia. }
  assert (Hitem : item_from_y self maxy y = Some j).
  { destruct (item_from_y_spec self maxy y) as [_ Hspec].
    rewrite (Hspec prefix full text rest Hres)
      by (rewrite Hprefix; unfold Results_const.MARGIN; lia).
    cbn zeta. rewrite Hprefix. unfold Results_const.MARGIN.
    rewrite Hdiv, Hres. f_equal.
    destruct (Z.leb_spec 0 y); [|lia].
    destruct (Z.ltb_spec j (Py.len ((prefix, full, text) :: rest))); [|lia].
    destruct (Z.leb_spec (j * (h + 4)) maxy); [|nia].
    by rewrite orb_true_r. }
  split; [done|].
  unfold mousePressEvent. rewrite Hitem. cbn.
  rewrite bool_decide_eq_true_2; [done|]. intros [= ?]. lia.
Qed.

Lemma laid_out_row_is_clickable_witness :
  let row := ({| markup := u "<b>a</b>"; height := 10 |},
              {| markup := u "a"; height := 10 |}, u "a") in
  let self := {| results := [row; row; row]; current_result := 0;
                 max_result := 2; mouse_hover_result := -1; updates := 0 |} in
  mousePressEvent self 31 1 20 = Selected (Some 1).
Proof.
  intros row self.
  refine (proj2 (laid_out_row_is_clickable self 10 30 31 1 16 20 _ _ _ _ _)).
  - lia.
  - repeat constructor.
  - lia.
  - rewrite list_elem_of_In. vm_compute. tauto.
  - vm_compute. split; [discriminate|reflexivity].
Defined.

(** ** Quick Open: query, repaint, arrows, accept *)

Lemma paint_rows_laid bottom rows :
  ∀ i y m m',
    (paint_rows bottom rows i y m).2 = (paint_rows bottom rows i y m').2.
Proof.
  induction rows as [|[[prefix full] text] rows IH]; intros i y m m';
    cbn [paint_rows]; [done|].
  destruct (y + height prefix >? bottom); [done|].
  specialize (IH (i + 1)
    (y + Results_const.MARGIN / 2 + height prefix + Results_const.MARGIN / 2)
    i i).
  by destruct (paint_rows bottom rows (i + 1) _ i).
Qed.

Lemma paintEvent_again (self self' : Results) (bottom : Z) :
  results self' = results self →
  max_result self' = max_result (paintEvent self bottom).1 →
  results (paintEvent self' bottom).1 = results self ∧
  current_result (paintEvent self' bottom).1 = current_result self' ∧
  max_result (paintEvent self' bottom).1 =
    max_result (paintEvent self bottom).1.
Proof.
  intros Hres Hmax.
  destruct (paintEvent_shape self bottom bottom)
    as (_ & _ & Hm & _).
  destruct (paintEvent_shape self' bottom bottom)
    as (_ & _ & Hm' & Hr' & Hc' & _).
  assert (Hlaid : (paintEvent self' bottom).2 = (paintEvent self bottom).2).
  { unfold paintEvent. rewrite Hres.
    pose proof (paint_rows_laid bottom (results self) 0 0
      (max_result self') (max_result self)) as H.
    destruct (paint_rows bottom (results self) 0 0 (max_result self')).
    by destruct (paint_rows bottom (results self) 0 0 (max_result self)). }
  split_and!; [by rewrite Hr'|done|].
  rewrite Hm', Hlaid, Hmax, Hm. by destruct (_ =? 0).
Qed.

Lemma down_presses_nonneg (events : list quick_event) :
  0 ≤ down_presses events.
Proof.
  induction events as [|[[]|] events IH]; cbn [down_presses]; lia.
Qed.

Lemma quick_run_down (bottom : Z) (shown : Results) (events : list quick_event) :
  Forall (λ e, e = Repaint ∨ e = KeyPress Key_Down) events →
  results shown ≠ [] →
  ∀ q,
    results (qo_results q) = results shown →
    max_result (qo_results q) = max_result (paintEvent shown bottom).1 →
    0 ≤ current_result (qo_results q)
      ≤ max_result (paintEvent shown bottom).1 →
    ∃ q',
      quick_run bottom q events = Some q' ∧
      qo_dialog q' = qo_dialog q ∧
      results (qo_results q') = results shown ∧
      current_result (qo_results q') =
        Z.min (current_result (qo_results q) + down_presses events)
              (max_result (paintEvent shown bottom).1).
Proof.
  intros Hev Hne. induction Hev as [|e events He _ IH]; intros q Hr Hm Hc.
  - exists q. cbn [quick_run down_presses]. split_and!; try done. lia.
  - destruct He as [->| ->]; cbn [quick_run quick_step down_presses].
    + destruct (paintEvent_again shown (qo_results q) bottom Hr Hm)
        as (Hr1 & Hc1 & Hm1).
      edestruct IH as (q' & Hq' & Hd & Hr' & Hc'); last first.
      { exists q'. split; [exact Hq'|]. cbn [qo_dialog qo_results] in *.
        rewrite Hc1 in Hc'. by split_and!. }
      all: cbn [qo_results]; rewrite ?Hc1; done.
    + cbn [keyPressEvent].
      destruct (change_current_step (qo_results q) 1)
        as (Hr1 & Hm1 & _ & Hc1 & _);
        [by rewrite Hr|by rewrite Hm|by left|].
      edestruct IH as (q' & Hq' & Hd & Hr' & Hc'); last first.
      { exists q'. split; [exact Hq'|]. cbn [qo_dialog qo_results] in *.
        rewrite Hc', Hc1, Hm. split_and!; try done.
        pose proof (down_presses_nonneg events). lia. }
      all: cbn [qo_results]; rewrite ?Hr1, ?Hm1, ?Hc1, ?Hm; try done; lia.
Qed.

Lemma quick_run_no_results (bottom : Z) (events : list quick_event) :
  Forall (λ e, e = Repaint ∨ e = KeyPress Key_Down) events →
  ∀ q,
    results (qo_results q) = [] →
    ∃ q',
      quick_run bottom q events = Some q' ∧
      qo_dialog q' = qo_dialog q ∧
      results (qo_results q') = [] ∧
      current_result (qo_results q') = current_result (qo_results q).
Proof.
  induction 1 as [|e events He _ IH]; intros q Hr.
  - by exists q.
  - destruct He as [->| ->]; cbn [quick_run quick_step].
    + destruct (paintEvent_shape (qo_results q) bottom bottom)
        as (_ & _ & _ & Hr1 & Hc1 & _).
      edestruct IH as (q' & Hq' & Hd & Hr' & Hc'); last first.
      { exists q'. split; [exact Hq'|]. cbn [qo_dialog qo_results] in *.
        rewrite Hc', Hc1. by split_and!. }
      cbn [qo_results]. by rewrite Hr1.
    + cbn [keyPressEvent]. unfold change_current. rewrite Hr.
      edestruct IH as (q' & Hq' & Hd & Hr' & Hc'); last first.
      { exists q'. split; [exact Hq'|]. cbn [qo_dialog qo_results] in *.
        by split_and!. }
      done.
Qed.

(** X8. Typing a query, letting the result list repaint, pressing the down
    arrow (with any further repaints in between) and accepting hands out the
    text of the match at index min(d, last), where [d] is the number of
    presses and [last] is the index of the last row the repaint laid out in
    a list that ends at [bottom] (min(10, N - 1) when it laid out none), and
    [None] when nothing matched: the selection starts at the best match,
    moves one match per press and stops at the last row painted.  The query
    hides the help label and shows the result list, and accepting stores the
    window geometry and closes the dialog as accepted. *)
Theorem quick_open_selects
    (prepare_string_for_xml : unicode → unicode) (text_height : unicode → Z)
    (matcher : unicode → list (unicode * list Z))
    (self : QuickOpen) (text : unicode) (bottom : Z)
    (events : list quick_event) (w : gui) :
  valid_matches prepare_string_for_xml (matcher (strip text)) = true →
  Forall (λ e, e = Repaint ∨ e = KeyPress Key_Down) events →
  ∃ q q',
    update_matches prepare_string_for_xml text_height matcher self text =
      Some q ∧
    help_label_visible q = false ∧
    results_visible q = true ∧
    qo_matches q = (matcher (strip text)).*1 ∧
    quick_run bottom q (Repaint :: events) = Some q' ∧
    let N := Py.len (matcher (strip text)) in
    let laid := Py.len (paintEvent (qo_results q) bottom).2 in
    let last := if laid =? 0 then Z.min 10 (N - 1) else laid - 1 in
    qo_selected_result (QuickOpen_accept q' w).1 =
      (matcher (strip text)).*1 !!
        Z.to_nat (Z.min (down_presses events) last) ∧
    code (qo_dialog (QuickOpen_accept q' w).1) = Accepted ∧
    tprefs (QuickOpen_accept q' w).2 !! geometry_key (name (qo_dialog self)) =
      Some (geometry (qo_dialog self)).
Proof.
  intros Hvalid Hev. set (matches := matcher (strip text)) in *.
  assert (Hcall : ∃ st, Results_call prepare_string_for_xml text_height
                          (qo_results self) matches = Some st).
  { unfold Results_call. destruct matches as [|m ms] eqn:Hm.
    - by eexists.
    - destruct (make_rows_total prepare_string_for_xml text_height
        (m :: ms) Hvalid) as [rows ->]. by eexists. }
  destruct Hcall as [st Hst].
  pose proof (Results_call_rows _ _ _ _ _ Hst) as (Htexts & Hc & Hm & _).
  assert (Hlen : Py.len (results st) = Py.len matches).
  { unfold Py.len. apply (f_equal length) in Htexts.
    rewrite !length_fmap in Htexts. by rewrite Htexts. }
  unfold update_matches. fold matches. rewrite Hst.
  cbn [mbind option_bind].
  set (q := {| qo_dialog := qo_dialog self; qo_results := st;
               qo_matches := matches.*1;
               qo_selected_result := qo_selected_result self;
               help_label_visible := false; results_visible := true |}).
  assert (Haccept : ∀ q', qo_dialog q' = qo_dialog self →
    code (qo_dialog (QuickOpen_accept q' w).1) = Accepted ∧
    tprefs (QuickOpen_accept q' w).2 !! geometry_key (name (qo_dialog self)) =
      Some (geometry (qo_dialog self))).
  { intros q' Hd. unfold QuickOpen_accept, Dialog_accept. rewrite Hd.
    cbn [fst snd qo_dialog close code emit tprefs]. split; [done|].
    rewrite save_state_tprefs.
    pose proof (geometry_key_ne_splitter_key (name (qo_dialog self))).
    rewrite (decide_False (P := _ ∧ _)) by (by intros [? _]).
    by rewrite decide_True. }
  destruct (paintEvent_shape st bottom bottom)
    as (_ & Hlaid & Hpm & Hpr & Hpc & _).
  set (q1 := {| qo_dialog := qo_dialog q;
                qo_results := (paintEvent (qo_results q) bottom).1;
                qo_matches := qo_matches q;
                qo_selected_result := qo_selected_result q;
                help_label_visible := help_label_visible q;
                results_visible := results_visible q |}).
  change (quick_run bottom q (Repaint :: events))
    with (quick_run bottom q1 events).
  change (qo_results q) with st.
  destruct matches as [|m ms] eqn:Hmatches.
  - assert (Hres : results st = []).
    { destruct (results st); [done|]. unfold Py.len in Hlen. simpl in Hlen.
      lia. }
    destruct (quick_run_no_results bottom events Hev q1)
      as (q' & Hq' & Hd & Hr & Hcur).
    { subst q1. cbn [qo_results]. change (qo_results q) with st.
      by rewrite Hpr. }
    exists q, q'. split_and!; try done; try (by apply Haccept).
    unfold QuickOpen_accept.
    destruct (Dialog_accept (qo_dialog q') w) as [d w'].
    cbn [fst qo_selected_result]. unfold selected_result.
    rewrite Hr. by destruct (current_result (qo_results q')).
  - assert (Hne : results st ≠ []).
    { intros Hres. rewrite Hres in Hlen. unfold Py.len in Hlen.
      simpl in Hlen. lia. }
    assert (Hpos : 0 < Py.len (m :: ms)) by (unfold Py.len; simpl; lia).
    assert (Hlast : 0 ≤ max_result (paintEvent st bottom).1).
    { rewrite Hpm, Hm. destruct (Z.eqb_spec (Py.len (paintEvent st bottom).2) 0);
        unfold Py.len in *; lia. }
    destruct (quick_run_down bottom st events Hev Hne q1)
      as (q' & Hq' & Hd & Hr & Hcur).
    { subst q1. cbn [qo_results]. change (qo_results q) with st.
      by rewrite Hpr. }
    { done. }
    { subst q1. cbn [qo_results]. change (qo_results q) with st.
      rewrite Hpc, Hc. lia. }
    subst q1. cbn [qo_results qo_dialog] in Hcur, Hd.
    change (qo_results q) with st in Hcur. rewrite Hpc, Hc, Hpm, Hm in Hcur.
    exists q, q'. split_and!; try done; try (by apply Haccept).
    unfold QuickOpen_accept.
    destruct (Dialog_accept (qo_dialog q') w) as [d w'].
    cbn [fst qo_selected_result]. unfold selected_result.
    rewrite Hr, Hcur, Z.add_0_l.
    pose proof (down_presses_nonneg events).
    rewrite item_nonneg.
    + rewrite <- list_lookup_fmap. by rewrite Htexts.
    + rewrite Hpm, Hm in Hlast. lia.
Qed.

Lemma quick_open_selects_witness :
  let matcher := λ _ : unicode,
    [(u "a/b.html", [2; 0]); (u "c&d", [-1]); (u "e", [0])] in
  let self := {| qo_dialog := {| name := u "quick-open"; geometry := [];
                                 splitter := None; code := Pending |};
                 qo_results := Results_init; qo_matches := [];
                 qo_selected_result := None;
                 help_label_visible := true; results_visible := false |} in
  let events := [KeyPress Key_Down; Repaint; KeyPress Key_Down;
                 KeyPress Key_Down] in
  ∃ q q',
    update_matches xml_escape (λ _, 10) matcher self (u " b ") = Some q ∧
    quick_run 30 q (Repaint :: events) = Some q' ∧
    qo_selected_result
      (QuickOpen_accept q' {| tprefs := ∅; trace := [] |}).1 =
      Some (u "c&d").
Proof.
  intros matcher self events.
  destruct (quick_open_selects xml_escape (λ _, 10) matcher self (u " b ")
    30 events {| tprefs := ∅; trace := [] |} eq_refl)
    as (q & q' & Hq & _ & _ & _ & Hq' & Hsel & _).
  { repeat first
      [ apply Forall_nil_2
      | apply Forall_cons_2; [first [by left | by right]|] ]. }
  exists q, q'. split_and!; [exact Hq|exact Hq'|].
  rewrite Hsel. apply (inj Some) in Hq. subst q. reflexivity.
Defined.
